(** * ChaosMaker: the configuration store, the query encoder and the
      redirect resolver

    A shallow embedding of [server/services/configStore.ts] and of the
    [POST /] and [GET /:filename] handlers of [server/routes/redirect.ts],
    with the properties the specification states about them.

    Conventions of the embedding.
    - A JavaScript string is a [string]; the only characters the code
      inspects are ASCII.
    - A JavaScript number is an integer of [Z]: every numeric field of the
      data model (segment index, sequence, bitrate, ladder rung, [ms],
      [code], [rate]) is an integer, and Number-to-string conversion of an
      integer below 10^21 in magnitude is its decimal numeral.
    - The fields of a record have the types the interfaces declare; what
      an ill-typed request body or file would make the code do is not
      modelled.
    - An optional property ([i?], [sq?], ...) is an [option]; [None] is
      [undefined].
    - The insertion-ordered [Map<string, ChaosProxyConfig>] is an
      association list in insertion order, oldest entry first. *)

From Stdlib Require Import List String Ascii ZArith Bool Lia.
From Stdlib Require Import Numbers.DecimalString.
Import ListNotations.

Open Scope list_scope.
Open Scope string_scope.

Set Warnings "-register-all".

(** ** Insertion-ordered maps

    [Map] keeps its entries in insertion order: [set] on a key that is
    present replaces the value where it stands, [set] on a new key adds the
    entry at the end, [delete] removes the entry and reports whether there
    was one. The own properties of a plain object with non-numeric keys
    behave the same way under assignment. *)

Module OrderedMap.

Section WithValues.

Context {V : Type}.

Definition t : Type := list (string * V).

Definition empty : t := [].

Fixpoint has (k : string) (m : t) : bool :=
  match m with
  | [] => false
  | (k', _) :: r => if String.eqb k' k then true else has k r
  end.

Fixpoint get (k : string) (m : t) : option V :=
  match m with
  | [] => None
  | (k', v) :: r => if String.eqb k' k then Some v else get k r
  end.

Fixpoint set (k : string) (v : V) (m : t) : t :=
  match m with
  | [] => [(k, v)]
  | (k', v') :: r =>
      if String.eqb k' k then (k', v) :: r else (k', v') :: set k v r
  end.

Fixpoint remove (k : string) (m : t) : t :=
  match m with
  | [] => []
  | (k', v) :: r => if String.eqb k' k then r else (k', v) :: remove k r
  end.

Definition delete (k : string) (m : t) : bool * t :=
  (has k m, remove k m).

Definition keys (m : t) : list string := map fst m.

Definition values (m : t) : list V := map snd m.

(** What [saveConfig] does to the map: [delete] the entry if there is
    one, then [set]. *)
Definition upsert (k : string) (v : V) (m : t) : t :=
  set k v (if has k m then snd (delete k m) else m).

(** A [Map] never holds two entries under one key. *)
Definition wf (m : t) : Prop := NoDup (keys m).

(** Number of entries stored under a key. *)
Definition count (k : string) (m : t) : nat :=
  List.length (filter (fun kv : string * V => String.eqb (fst kv) k) m).

End WithValues.

Arguments t : clear implicits.

End OrderedMap.

(** ** JavaScript values and the primitives the code relies on *)

Module JS.

(** The values [toUnquotedJson] can be handed ([obj: any]). An object is
    the list of its own enumerable properties in insertion order, which is
    the order [Object.entries] returns them in. *)
Inductive Value : Type :=
| Undefined
| Null
| Bool (b : bool)
| Number (n : Z)
| Str (s : string)
| Array (items : list Value)
| Object (props : list (string * Value)).

(** Number-to-string, as a template literal or [JSON.stringify] does it. *)
Definition numberToString (n : Z) : string :=
  NilEmpty.string_of_int (Z.to_int n).

Definition booleanToString (b : bool) : string :=
  if b then "true" else "false".

Definition hexDigit (n : nat) : ascii :=
  match n with
  | 0 => "0" | 1 => "1" | 2 => "2" | 3 => "3" | 4 => "4" | 5 => "5"
  | 6 => "6" | 7 => "7" | 8 => "8" | 9 => "9" | 10 => "a" | 11 => "b"
  | 12 => "c" | 13 => "d" | 14 => "e" | _ => "f"
  end%char.

Definition backslash : ascii := ascii_of_nat 92.

Definition dquote : string := String (ascii_of_nat 34) "".

(** [QuoteJSONString] on one character: the two-character escapes, the
    [\u00xx] form for the other control characters, the character itself
    otherwise. *)
Definition quoteJSONChar (c : ascii) : string :=
  let n := nat_of_ascii c in
  if Nat.eqb n 8 then String backslash "b"
  else if Nat.eqb n 9 then String backslash "t"
  else if Nat.eqb n 10 then String backslash "n"
  else if Nat.eqb n 12 then String backslash "f"
  else if Nat.eqb n 13 then String backslash "r"
  else if Nat.eqb n 34 then String backslash dquote
  else if Nat.eqb n 92 then String backslash (String backslash "")
  else if Nat.ltb n 32 then
    String backslash
      ("u00" ++ String (hexDigit (n / 16)) (String (hexDigit (n mod 16)) ""))
  else String c "".

Fixpoint quoteJSONBody (s : string) : string :=
  match s with
  | EmptyString => ""
  | String c r => quoteJSONChar c ++ quoteJSONBody r
  end.

Definition quoteJSONString (s : string) : string :=
  dquote ++ quoteJSONBody s ++ dquote.

(** [JSON.stringify] on the values that reach the last line of
    [toUnquotedJson]: primitives, [null] and [undefined]. Its result on
    [undefined] is [undefined], which is [None] here. *)
Definition stringifyPrimitive (v : Value) : option string :=
  match v with
  | Undefined => None
  | Null => Some "null"
  | Bool b => Some (booleanToString b)
  | Number n => Some (numberToString n)
  | Str s => Some (quoteJSONString s)
  | Array _ | Object _ => None
  end.

(** [Array.prototype.join]: an [undefined] element contributes the empty
    string. *)
Definition join (sep : string) (parts : list (option string)) : string :=
  String.concat sep (map (fun p => match p with Some s => s | None => "" end) parts).

(** Interpolation [${e}] of a value that is a string or [undefined]. *)
Definition interpolate (p : option string) : string :=
  match p with Some s => s | None => "undefined" end.

(** [s.endsWith(suffix)]: some tail of [s] is [suffix]. *)
Fixpoint endsWith (s suffix : string) : bool :=
  if String.eqb s suffix then true
  else match s with
       | EmptyString => false
       | String _ r => endsWith r suffix
       end.

(** [s.slice(0, -k)] for a positive [k]. *)
Definition sliceDropLast (k : nat) (s : string) : string :=
  substring 0 (String.length s - k) s.

Fixpoint toUpperCase (s : string) : string :=
  match s with
  | EmptyString => ""
  | String c r =>
      let n := nat_of_ascii c in
      String (if Nat.leb 97 n && Nat.leb n 122 then ascii_of_nat (n - 32) else c)
             (toUpperCase r)
  end.

End JS.

(** ** [server/services/configStore.ts] *)

(** [protocol: 'hls' | 'dash'] *)
Inductive Protocol : Type := hls | dash.

Definition protocolToString (p : Protocol) : string :=
  match p with hls => "hls" | dash => "dash" end.

(** [streamType?: 'live' | 'vod'] *)
Inductive StreamType : Type := live | vod.

(** [i?: number | '*'] *)
Inductive IndexValue : Type :=
| IndexNumber (n : Z)
| IndexAll.

Record Delay : Type := mkDelay {
  delay_i : option IndexValue;
  delay_sq : option Z;
  delay_rsq : option Z;
  delay_br : option Z;
  delay_l : option Z;
  delay_ms : option Z
}.

Record StatusCode : Type := mkStatusCode {
  status_i : option IndexValue;
  status_sq : option Z;
  status_rsq : option Z;
  status_br : option Z;
  status_code : option Z
}.

Record Timeout : Type := mkTimeout {
  timeout_i : option IndexValue;
  timeout_sq : option Z;
  timeout_rsq : option Z;
  timeout_br : option Z
}.

Record Throttle : Type := mkThrottle {
  throttle_i : option IndexValue;
  throttle_sq : option Z;
  throttle_rsq : option Z;
  throttle_br : option Z;
  throttle_rate : option Z
}.

(** [interface ChaosProxyConfig]. The interface declares [sourceUrl] as a
    string; [generateProxyUrl] nevertheless guards against a record without
    one (records read back from the file are not validated), so the field is
    an [option] and [None] is that missing property. *)
Record ChaosProxyConfig : Type := mkConfig {
  name : string;
  instanceUrl : string;
  sourceUrl : option string;
  protocol : Protocol;
  streamType : option StreamType;
  description : option string;
  delays : list Delay;
  statusCodes : list StatusCode;
  timeouts : list Timeout;
  throttles : list Throttle
}.

(** *** The serializer *)

(** [toUnquotedJson(obj: any): string]. The result is [None] only where the
    JavaScript function returns [undefined], that is on [undefined] itself.
    [.filter(...).map(...)] over the entries is one traversal here: an entry
    whose value is [undefined] yields nothing, any other entry yields its
    rendering. *)
Fixpoint toUnquotedJson (obj : JS.Value) : option string :=
  match obj with
  | JS.Array items =>
      Some ("[" ++ JS.join "," (map toUnquotedJson items) ++ "]")
  | JS.Object props =>
      let entries :=
        flat_map (fun kv : string * JS.Value =>
               let (key, value) := kv in
               match value with
               | JS.Undefined => []
               | JS.Number n => [key ++ ":" ++ JS.numberToString n]
               | JS.Str s =>
                   if String.eqb s "*" then [key ++ ":*"]
                   else [key ++ ":" ++ JS.dquote ++ s ++ JS.dquote]
               | JS.Bool b => [key ++ ":" ++ JS.booleanToString b]
               | _ => [key ++ ":" ++ JS.interpolate (toUnquotedJson value)]
               end)
            props
      in
      Some ("{" ++ String.concat "," entries ++ "}")
  | _ => JS.stringifyPrimitive obj
  end.

(** *** The store *)

(** What [chaos-configs.json] holds: nothing (no such file), something that
    [JSON.parse] or the traversal rejects, or an array of configurations.
    [JSON.stringify] followed by [JSON.parse] gives back the records it was
    given, unset optional properties staying unset, so the text in between
    is not modelled. [writable] tells whether [fs.writeFileSync] succeeds. *)
Inductive FileContent : Type :=
| NoFile
| Unreadable
| Holds (records : list ChaosProxyConfig).

Record Disk : Type := mkDisk {
  content : FileContent;
  writable : bool
}.

(** The state of [class ConfigStore] together with the file it is backed
    by. Console output is not modelled. *)
Record Store : Type := mkStore {
  configs : OrderedMap.t ChaosProxyConfig;
  disk : Disk
}.

Definition getKey (name : string) (protocol : Protocol) : string :=
  name ++ ":" ++ protocolToString protocol.

Definition keyOf (config : ChaosProxyConfig) : string :=
  getKey (name config) (protocol config).

(** [loadFromFile]: every failure is caught and leaves the map as it was. *)
Definition loadFromFile (s : Store) : Store :=
  match content (disk s) with
  | Holds records =>
      {| configs :=
           fold_left (fun m config => OrderedMap.set (keyOf config) config m)
                     records (configs s);
         disk := disk s |}
  | NoFile | Unreadable => s
  end.

(** [new ConfigStore()], up to the base URL. *)
Definition newStore (d : Disk) : Store :=
  loadFromFile {| configs := OrderedMap.empty; disk := d |}.

(** [saveToFile]: the values in reverse insertion order; a failed write is
    caught and changes nothing. *)
Definition saveToFile (s : Store) : Store :=
  let sortedConfigs := rev (OrderedMap.values (configs s)) in
  if writable (disk s)
  then {| configs := configs s;
          disk := {| content := Holds sortedConfigs; writable := true |} |}
  else s.

Definition saveConfig (config : ChaosProxyConfig) (s : Store) : Store :=
  let key := keyOf config in
  let m := if OrderedMap.has key (configs s)
           then snd (OrderedMap.delete key (configs s))
           else configs s in
  let m := OrderedMap.set key config m in
  saveToFile {| configs := m; disk := disk s |}.

Definition getConfig (name : string) (protocol : Protocol) (s : Store)
  : option ChaosProxyConfig :=
  OrderedMap.get (getKey name protocol) (configs s).

Definition listConfigs (s : Store) : list ChaosProxyConfig :=
  rev (OrderedMap.values (configs s)).

Definition deleteConfig (name : string) (protocol : Protocol) (s : Store)
  : bool * Store :=
  let key := getKey name protocol in
  let (deleted, m) := OrderedMap.delete key (configs s) in
  if deleted
  then (deleted, saveToFile {| configs := m; disk := disk s |})
  else (deleted, {| configs := m; disk := disk s |}).

Definition hasConfig (name : string) (protocol : Protocol) (s : Store) : bool :=
  OrderedMap.has (getKey name protocol) (configs s).

(** *** The query encoder *)

Definition indexValue (i : IndexValue) : JS.Value :=
  match i with
  | IndexNumber n => JS.Number n
  | IndexAll => JS.Str "*"
  end.

(** [if (d.k !== undefined) obj.k = d.k] *)
Definition assignIfDefined (key : string) (v : option JS.Value)
    (obj : OrderedMap.t JS.Value) : OrderedMap.t JS.Value :=
  match v with
  | Some x => OrderedMap.set key x obj
  | None => obj
  end.

Definition delayObject (d : Delay) : JS.Value :=
  let obj := OrderedMap.empty in
  let obj := assignIfDefined "i" (option_map indexValue (delay_i d)) obj in
  let obj := assignIfDefined "sq" (option_map JS.Number (delay_sq d)) obj in
  let obj := assignIfDefined "rsq" (option_map JS.Number (delay_rsq d)) obj in
  let obj := assignIfDefined "br" (option_map JS.Number (delay_br d)) obj in
  let obj := assignIfDefined "l" (option_map JS.Number (delay_l d)) obj in
  let obj := assignIfDefined "ms" (option_map JS.Number (delay_ms d)) obj in
  JS.Object obj.

Definition statusCodeObject (s : StatusCode) : JS.Value :=
  let obj := OrderedMap.empty in
  let obj := assignIfDefined "i" (option_map indexValue (status_i s)) obj in
  let obj := assignIfDefined "sq" (option_map JS.Number (status_sq s)) obj in
  let obj := assignIfDefined "rsq" (option_map JS.Number (status_rsq s)) obj in
  let obj := assignIfDefined "br" (option_map JS.Number (status_br s)) obj in
  let obj := assignIfDefined "code" (option_map JS.Number (status_code s)) obj in
  JS.Object obj.

Definition timeoutObject (t : Timeout) : JS.Value :=
  let obj := OrderedMap.empty in
  let obj := assignIfDefined "i" (option_map indexValue (timeout_i t)) obj in
  let obj := assignIfDefined "sq" (option_map JS.Number (timeout_sq t)) obj in
  let obj := assignIfDefined "rsq" (option_map JS.Number (timeout_rsq t)) obj in
  let obj := assignIfDefined "br" (option_map JS.Number (timeout_br t)) obj in
  JS.Object obj.

Definition throttleObject (t : Throttle) : JS.Value :=
  let obj := OrderedMap.empty in
  let obj := assignIfDefined "i" (option_map indexValue (throttle_i t)) obj in
  let obj := assignIfDefined "sq" (option_map JS.Number (throttle_sq t)) obj in
  let obj := assignIfDefined "rsq" (option_map JS.Number (throttle_rsq t)) obj in
  let obj := assignIfDefined "br" (option_map JS.Number (throttle_br t)) obj in
  let obj := assignIfDefined "rate" (option_map JS.Number (throttle_rate t)) obj in
  JS.Object obj.

Definition endpointOf (p : Protocol) : string :=
  match p with
  | hls => "/api/v2/manifests/hls/proxy-master.m3u8"
  | dash => "/api/v2/manifests/dash/proxy-master.mpd"
  end.

(** [array.push(item)] *)
Definition push {A : Type} (array : list A) (item : A) : list A :=
  app array [item].

(** [queryParts.push(`<param>=${this.toUnquotedJson(objects)}`)] under the
    guard [items.length > 0]. *)
Definition pushCorruptions {A : Type} (param : string) (toObject : A -> JS.Value)
    (items : list A) (queryParts : list string) : list string :=
  if Nat.ltb 0 (List.length items)
  then push queryParts
         (param ++ "=" ++ JS.interpolate (toUnquotedJson (JS.Array (map toObject items))))
  else queryParts.

(** The body of [generateProxyUrl] once the record has been fetched. [None]
    is the [null] result. *)
Definition encodeProxyUrl (config : ChaosProxyConfig) : option string :=
  match sourceUrl config with
  | None | Some EmptyString => None
  | Some url =>
      let endpoint := endpointOf (protocol config) in
      let queryParts := [] in
      let queryParts := push queryParts ("url=" ++ url) in
      let queryParts := pushCorruptions "delay" delayObject (delays config) queryParts in
      let queryParts := pushCorruptions "statusCode" statusCodeObject (statusCodes config) queryParts in
      let queryParts := pushCorruptions "timeout" timeoutObject (timeouts config) queryParts in
      let queryParts := pushCorruptions "throttle" throttleObject (throttles config) queryParts in
      Some (instanceUrl config ++ endpoint ++ "?" ++ String.concat "&" queryParts)
  end.

Definition generateProxyUrl (name : string) (protocol : Protocol) (s : Store)
  : option string :=
  match getConfig name protocol s with
  | None => None
  | Some config => encodeProxyUrl config
  end.


(** The last path segment of the URL [generateRedirectUrl] builds,
    [`${name}.${extension}`]. *)
Definition extensionOf (p : Protocol) : string :=
  match p with hls => "m3u8" | dash => "mpd" end.

Definition redirectFilename (name : string) (p : Protocol) : string :=
  name ++ "." ++ extensionOf p.

(** ** [server/routes/redirect.ts] *)

(** What a handler answers. [JsonSuccess] is [res.json(...)] with the
    default status. *)
Inductive Response : Type :=
| JsonError (status : Z) (error message : string)
| JsonSuccess (message : string)
| Send (status : Z) (text : string)
| Redirect (status : Z) (location : string).

Definition statusOf (r : Response) : Z :=
  match r with
  | JsonError status _ _ => status
  | JsonSuccess _ => 200
  | Send status _ => status
  | Redirect status _ => status
  end.

(** The calls a handler makes on the [configStore] singleton, recorded in
    the order they are made. *)
Inductive StoreCall : Type :=
| CallSaveConfig (config : ChaosProxyConfig)
| CallGetConfig (name : string) (protocol : Protocol)
| CallGenerateProxyUrl (name : string) (protocol : Protocol).

Record Server : Type := mkServer {
  store : Store;
  calls : list StoreCall
}.

(** Handlers run against the server state. *)
Definition Handler (A : Type) : Type := Server -> A * Server.

Definition ret {A : Type} (a : A) : Handler A := fun sv => (a, sv).

Definition bind {A B : Type} (m : Handler A) (k : A -> Handler B) : Handler B :=
  fun sv => let (a, sv') := m sv in k a sv'.

Notation "x <- m ;; k" := (bind m (fun x => k))
  (at level 61, m at next level, right associativity).

Definition callSaveConfig (config : ChaosProxyConfig) : Handler unit :=
  fun sv => (tt, {| store := saveConfig config (store sv);
                    calls := push (calls sv) (CallSaveConfig config) |}).

Definition callGetConfig (name : string) (protocol : Protocol)
  : Handler (option ChaosProxyConfig) :=
  fun sv => (getConfig name protocol (store sv),
             {| store := store sv;
                calls := push (calls sv) (CallGetConfig name protocol) |}).

Definition callGenerateProxyUrl (name : string) (protocol : Protocol)
  : Handler (option string) :=
  fun sv => (generateProxyUrl name protocol (store sv),
             {| store := store sv;
                calls := push (calls sv) (CallGenerateProxyUrl name protocol) |}).

(** [req.body] of [POST /], field by field; [None] is a property the body
    does not have. *)
Record SaveBody : Type := mkSaveBody {
  body_name : option string;
  body_instanceUrl : option string;
  body_sourceUrl : option string;
  body_protocol : option Protocol;
  body_streamType : option StreamType;
  body_description : option string;
  body_delays : option (list Delay);
  body_statusCodes : option (list StatusCode);
  body_timeouts : option (list Timeout);
  body_throttles : option (list Throttle)
}.

(** [x || fallback] on a property that is an object or a non-empty token
    when present. *)
Definition orDefault {A : Type} (x : option A) (fallback : A) : A :=
  match x with Some a => a | None => fallback end.

Definition isEmpty (s : string) : bool :=
  match s with EmptyString => true | _ => false end.

(** One character of the class [[a-zA-Z0-9_-]]. *)
Definition isNameChar (c : ascii) : bool :=
  let n := nat_of_ascii c in
  (Nat.leb 97 n && Nat.leb n 122) || (Nat.leb 65 n && Nat.leb n 90) ||
  (Nat.leb 48 n && Nat.leb n 57) || Nat.eqb n 95 || Nat.eqb n 45.

Fixpoint allNameChars (s : string) : bool :=
  match s with
  | EmptyString => true
  | String c r => isNameChar c && allNameChars r
  end.

(** [/^[a-zA-Z0-9_-]+$/.test(name)] *)
Definition testNamePattern (name : string) : bool :=
  negb (isEmpty name) && allNameChars name.

(** [router.post('/')] *)
Definition postConfig (body : SaveBody) : Handler Response :=
  match body_name body, body_instanceUrl body, body_sourceUrl body, body_protocol body with
  | Some name, Some instanceUrl, Some sourceUrl, Some protocol =>
      if isEmpty name || isEmpty instanceUrl || isEmpty sourceUrl then
        ret (JsonError 400 "Invalid request"
               "name, instanceUrl, sourceUrl, and protocol are required")
      else if negb (testNamePattern name) then
        ret (JsonError 400 "Invalid name"
               "Configuration name must contain only letters, numbers, hyphens, and underscores")
      else
        _ <- callSaveConfig
               {| name := name;
                  instanceUrl := instanceUrl;
                  sourceUrl := Some sourceUrl;
                  protocol := protocol;
                  streamType := Some (orDefault (body_streamType body) live);
                  description := body_description body;
                  delays := orDefault (body_delays body) [];
                  statusCodes := orDefault (body_statusCodes body) [];
                  timeouts := orDefault (body_timeouts body) [];
                  throttles := orDefault (body_throttles body) [] |} ;;
        ret (JsonSuccess ("Configuration '" ++ name ++ "' (" ++
                          protocolToString protocol ++ ") saved"))
  | _, _, _, _ =>
      ret (JsonError 400 "Invalid request"
             "name, instanceUrl, sourceUrl, and protocol are required")
  end.

(** The first lines of [router.get('/:filename')]: name and protocol from
    the extension, [None] where the handler answers 400. *)
Definition parseFilename (filename : string) : option (string * Protocol) :=
  if JS.endsWith filename ".m3u8" then Some (JS.sliceDropLast 5 filename, hls)
  else if JS.endsWith filename ".mpd" then Some (JS.sliceDropLast 4 filename, dash)
  else None.

Definition notFoundText (name : string) (protocol : Protocol) : string :=
  ("Configuration '" ++ name ++ "' for " ++
   JS.toUpperCase (protocolToString protocol) ++ " not found. ") ++
  "Please create a configuration with this name and protocol first.".

(** [router.get('/:filename')] *)
Definition getRedirect (filename : string) : Handler Response :=
  match parseFilename filename with
  | None => ret (Send 400 "Invalid filename. Use .m3u8 for HLS or .mpd for DASH")
  | Some (name, protocol) =>
      config <- callGetConfig name protocol ;;
      match config with
      | None => ret (Send 404 (notFoundText name protocol))
      | Some _ =>
          proxyUrl <- callGenerateProxyUrl name protocol ;;
          match proxyUrl with
          | None | Some EmptyString => ret (Send 500 "Failed to generate proxy URL")
          | Some url => ret (Redirect 302 url)
          end
      end
  end.


(** ** Notions the properties are stated with *)

(** Every entry of the map sits under the key of its own record, as
    [loadFromFile] and [saveConfig] put it. *)
Definition consistent (m : OrderedMap.t ChaosProxyConfig) : Prop :=
  Forall (fun kv => fst kv = keyOf (snd kv)) m.

Definition StoreInv (s : Store) : Prop :=
  OrderedMap.wf (configs s) /\ consistent (configs s).

(** The stores the program can be in: built at startup from whatever the
    file holds, then changed by saves and deletes. *)
Inductive Reachable : Store -> Prop :=
| reach_new (d : Disk) : Reachable (newStore d)
| reach_save (c : ChaosProxyConfig) (s : Store) :
    Reachable s -> Reachable (saveConfig c s)
| reach_delete (n : string) (p : Protocol) (s : Store) :
    Reachable s -> Reachable (snd (deleteConfig n p s)).

Definition sameKey (c c' : ChaosProxyConfig) : bool :=
  String.eqb (keyOf c') (keyOf c).

Definition otherKey (c c' : ChaosProxyConfig) : bool :=
  negb (sameKey c c').

(** A run of saves, first to last. *)
Definition saveAll (cs : list ChaosProxyConfig) (s : Store) : Store :=
  fold_left (fun st c => saveConfig c st) cs s.

(** Of a list of records given latest first, the latest record of every
    key, still latest first. *)
Fixpoint mostRecentFirst (l : list ChaosProxyConfig) : list ChaosProxyConfig :=
  match l with
  | [] => []
  | c :: r => c :: filter (otherKey c) (mostRecentFirst r)
  end.

(** The string holds no double quote. *)
Fixpoint quoteFree (s : string) : bool :=
  match s with
  | EmptyString => true
  | String c r => negb (Nat.eqb (nat_of_ascii c) 34) && quoteFree r
  end.

(** A descriptor of any of the four kinds, and the object
    [generateProxyUrl] builds for it. *)
Inductive Corruption : Type :=
| OfDelay (d : Delay)
| OfStatusCode (s : StatusCode)
| OfTimeout (t : Timeout)
| OfThrottle (t : Throttle).

Definition corruptionObject (c : Corruption) : JS.Value :=
  match c with
  | OfDelay d => delayObject d
  | OfStatusCode s => statusCodeObject s
  | OfTimeout t => timeoutObject t
  | OfThrottle t => throttleObject t
  end.

Definition indexOf (c : Corruption) : option IndexValue :=
  match c with
  | OfDelay d => delay_i d
  | OfStatusCode s => status_i s
  | OfTimeout t => timeout_i t
  | OfThrottle t => throttle_i t
  end.

(** What [router.get('/:filename')] answers once the record is found, from
    what the encoder gave. *)
Definition redirectAnswer (proxyUrl : option string) : Response :=
  match proxyUrl with
  | None | Some EmptyString => Send 500 "Failed to generate proxy URL"
  | Some url => Redirect 302 url
  end.

(** *** The wire format in the specification's words

    An object is its set fields, in declaration order, each written
    [key:value] with a bare key, separated by commas between braces; the
    wildcard is the bare token [*]; a number is its numeral; an unset field
    is left out. An array is its objects between brackets. A parameter is
    there when its list has entries. *)

Definition spec_number (n : Z) : string := JS.numberToString n.

Definition spec_index (i : IndexValue) : string :=
  match i with
  | IndexAll => "*"
  | IndexNumber n => spec_number n
  end.

Definition spec_fields (c : Corruption) : list (string * option string) :=
  match c with
  | OfDelay d =>
      [("i", option_map spec_index (delay_i d));
       ("sq", option_map spec_number (delay_sq d));
       ("rsq", option_map spec_number (delay_rsq d));
       ("br", option_map spec_number (delay_br d));
       ("l", option_map spec_number (delay_l d));
       ("ms", option_map spec_number (delay_ms d))]
  | OfStatusCode s =>
      [("i", option_map spec_index (status_i s));
       ("sq", option_map spec_number (status_sq s));
       ("rsq", option_map spec_number (status_rsq s));
       ("br", option_map spec_number (status_br s));
       ("code", option_map spec_number (status_code s))]
  | OfTimeout t =>
      [("i", option_map spec_index (timeout_i t));
       ("sq", option_map spec_number (timeout_sq t));
       ("rsq", option_map spec_number (timeout_rsq t));
       ("br", option_map spec_number (timeout_br t))]
  | OfThrottle t =>
      [("i", option_map spec_index (throttle_i t));
       ("sq", option_map spec_number (throttle_sq t));
       ("rsq", option_map spec_number (throttle_rsq t));
       ("br", option_map spec_number (throttle_br t));
       ("rate", option_map spec_number (throttle_rate t))]
  end.

Fixpoint spec_present (fields : list (string * option string)) : list string :=
  match fields with
  | [] => []
  | (key, Some value) :: r => (key ++ ":" ++ value) :: spec_present r
  | (_, None) :: r => spec_present r
  end.

Definition spec_object (c : Corruption) : string :=
  "{" ++ String.concat "," (spec_present (spec_fields c)) ++ "}".

Definition spec_array (cs : list Corruption) : string :=
  "[" ++ String.concat "," (map spec_object cs) ++ "]".

Definition spec_param (param : string) (cs : list Corruption) : string :=
  match cs with
  | [] => ""
  | _ :: _ => "&" ++ param ++ "=" ++ spec_array cs
  end.

Definition spec_query (url : string) (config : ChaosProxyConfig) : string :=
  "url=" ++ url ++
  spec_param "delay" (map OfDelay (delays config)) ++
  spec_param "statusCode" (map OfStatusCode (statusCodes config)) ++
  spec_param "timeout" (map OfTimeout (timeouts config)) ++
  spec_param "throttle" (map OfThrottle (throttles config)).

(** *** Sample data *)

Definition sampleDelay : Delay :=
  mkDelay (Some IndexAll) None None None None (Some 1000%Z).

Definition sampleTimeout : Timeout :=
  mkTimeout None None None (Some 2000000%Z).

Definition sampleConfig : ChaosProxyConfig :=
  {| name := "demo";
     instanceUrl := "https://chaos.example.com";
     sourceUrl := Some "https://origin.example.com/live/master.m3u8";
     protocol := hls;
     streamType := Some live;
     description := None;
     delays := [sampleDelay];
     statusCodes := [];
     timeouts := [sampleTimeout];
     throttles := [] |}.

(** The same configuration with the delay changed to 2500 ms. *)
Definition sampleUpdated : ChaosProxyConfig :=
  {| name := "demo";
     instanceUrl := "https://chaos.example.com";
     sourceUrl := Some "https://origin.example.com/live/master.m3u8";
     protocol := hls;
     streamType := Some live;
     description := None;
     delays := [mkDelay (Some IndexAll) None None None None (Some 2500%Z)];
     statusCodes := [];
     timeouts := [sampleTimeout];
     throttles := [] |}.

Definition sampleDash : ChaosProxyConfig :=
  {| name := "demo";
     instanceUrl := "https://chaos.example.com";
     sourceUrl := Some "https://origin.example.com/vod/manifest.mpd";
     protocol := dash;
     streamType := Some vod;
     description := Some "dash twin";
     delays := [];
     statusCodes := [mkStatusCode (Some (IndexNumber 3)) None None None (Some 404%Z)];
     timeouts := [];
     throttles := [] |}.

Definition sampleOther : ChaosProxyConfig :=
  {| name := "other";
     instanceUrl := "https://chaos.example.com";
     sourceUrl := Some "https://origin.example.com/live/other.m3u8";
     protocol := hls;
     streamType := Some live;
     description := None;
     delays := [];
     statusCodes := [];
     timeouts := [];
     throttles := [mkThrottle None (Some 7%Z) None None (Some 100000%Z)] |}.

(** A record without a usable source URL, as a hand-edited file can hold. *)
Definition sampleNoSource : ChaosProxyConfig :=
  {| name := "broken";
     instanceUrl := "https://chaos.example.com";
     sourceUrl := Some "";
     protocol := hls;
     streamType := None;
     description := None;
     delays := [sampleDelay];
     statusCodes := [];
     timeouts := [];
     throttles := [] |}.

Definition emptyDisk : Disk := {| content := NoFile; writable := true |}.

Definition emptyStore : Store := newStore emptyDisk.

Definition emptyServer : Server := {| store := emptyStore; calls := [] |}.

Definition sampleStore : Store :=
  saveConfig sampleDash (saveConfig sampleOther (saveConfig sampleConfig emptyStore)).

Definition sampleBadBody : SaveBody :=
  {| body_name := Some "bad name!";
     body_instanceUrl := Some "https://chaos.example.com";
     body_sourceUrl := Some "https://origin.example.com/live/master.m3u8";
     body_protocol := Some hls;
     body_streamType := None;
     body_description := None;
     body_delays := Some [sampleDelay];
     body_statusCodes := None;
     body_timeouts := None;
     body_throttles := None |}.

(** ** More of [configStore.ts]: the base URL *)

(** The environment variables [initializeBaseUrl] reads; [None] is a
    variable that is not set. *)
Record Env : Type := mkEnv {
  PUBLIC_HOSTNAME : option string;
  PUBLIC_PORT : option string;
  PORT : option string;
  PUBLIC_PROTOCOL : option string
}.

(** [process.env.X || fallback]: a variable that is unset or empty gives
    the fallback. *)
Definition envOr (v : option string) (fallback : string) : string :=
  match v with
  | Some (String c r) => String c r
  | Some EmptyString | None => fallback
  end.

(** [initializeBaseUrl], returning what it stores in [this.baseUrl]. The
    port is a string, so the comparisons [port !== 80] and [port !== 443]
    with a number are always true and are left out. *)
Definition initializeBaseUrl (env : Env) : string :=
  let hostname := envOr (PUBLIC_HOSTNAME env) "localhost" in
  let port := envOr (PUBLIC_PORT env) (envOr (PORT env) "3001") in
  let protocol := envOr (PUBLIC_PROTOCOL env) "http" in
  let url := protocol ++ "://" ++ hostname in
  if (String.eqb protocol "http" && negb (String.eqb port "80")) ||
     (String.eqb protocol "https" && negb (String.eqb port "443"))
  then url ++ ":" ++ port
  else url.

(** [generateRedirectUrl], with [this.baseUrl] as a parameter. *)
Definition generateRedirectUrl (baseUrl name : string) (protocol : Protocol)
  : string :=
  let extension := match protocol with hls => "m3u8" | dash => "mpd" end in
  baseUrl ++ "/redirect/" ++ name ++ "." ++ extension.

(** ** More of [routes/redirect.ts]: list, fetch and delete *)

(** [{ ...config, proxyUrl, redirectUrl }] *)
Record ConfigWithUrls : Type := mkConfigWithUrls {
  view_config : ChaosProxyConfig;
  view_proxyUrl : option string;
  view_redirectUrl : string
}.

(** What the JSON routes answer: an error body with its status, a success
    message, one configuration, or the list of all. *)
Inductive ApiResponse : Type :=
| ApiError (status : Z) (error message : string)
| ApiSuccess (message : string)
| ApiConfig (config : ConfigWithUrls)
| ApiConfigs (views : list ConfigWithUrls).

Definition withUrls (baseUrl : string) (s : Store) (config : ChaosProxyConfig)
  : ConfigWithUrls :=
  {| view_config := config;
     view_proxyUrl := generateProxyUrl (name config) (protocol config) s;
     view_redirectUrl := generateRedirectUrl baseUrl (name config) (protocol config) |}.

(** The test [protocol !== 'hls' && protocol !== 'dash'] on the route
    parameter, with the token read as a protocol where it passes. *)
Definition protocolParam (protocol : string) : option Protocol :=
  if String.eqb protocol "hls" then Some hls
  else if String.eqb protocol "dash" then Some dash
  else None.

Definition invalidProtocol : ApiResponse :=
  ApiError 400 "Invalid protocol"
    ("Protocol must be either " ++ JS.dquote ++ "hls" ++ JS.dquote ++
     " or " ++ JS.dquote ++ "dash" ++ JS.dquote).

Definition notFound (name protocol : string) : ApiResponse :=
  ApiError 404 "Not found"
    ("Configuration '" ++ name ++ "' (" ++ protocol ++ ") not found").

(** [router.get('/')] *)
Definition listRoute (baseUrl : string) (s : Store) : ApiResponse :=
  ApiConfigs (map (withUrls baseUrl s) (listConfigs s)).

(** [router.get('/:name/:protocol')] *)
Definition getConfigRoute (baseUrl name protocol : string) (s : Store)
  : ApiResponse :=
  match protocolParam protocol with
  | None => invalidProtocol
  | Some p =>
      match getConfig name p s with
      | None => notFound name protocol
      | Some config => ApiConfig (withUrls baseUrl s config)
      end
  end.

(** [router.delete('/:name/:protocol')] *)
Definition deleteConfigRoute (name protocol : string) (s : Store)
  : ApiResponse * Store :=
  match protocolParam protocol with
  | None => (invalidProtocol, s)
  | Some p =>
      let (deleted, s') := deleteConfig name p s in
      if deleted
      then (ApiSuccess ("Configuration '" ++ name ++ "' (" ++ protocol ++ ") deleted"), s')
      else (notFound name protocol, s')
  end.

(** ** The targeting selector of the [ChaosConfig] component

    [getTargetingMode] and [handleModeChange] of [renderTargetingFields],
    on a Delay descriptor, the kind that has every targeting field. A
    property that is present with the value [undefined] and a property that
    is absent are both [None]: neither function, nor the encoder, nor
    [JSON.stringify] tells them apart. *)

Definition getTargetingMode (value : Delay) : string :=
  match delay_i value with
  | Some IndexAll => "all"
  | Some (IndexNumber _) => "index"
  | None =>
      match delay_sq value with
      | Some _ => "sequence"
      | None =>
          match delay_rsq value with
          | Some _ => "relative"
          | None =>
              match delay_br value with
              | Some _ => "bitrate"
              | None =>
                  match delay_l value with
                  | Some _ => "ladder"
                  | None => "none"
                  end
              end
          end
      end
  end.

(** [handleModeChange(mode)], returning the value handed to [onChange]. *)
Definition handleModeChange (mode : string) (value : Delay) : Delay :=
  let cleared :=
    {| delay_i := None; delay_sq := None; delay_rsq := None;
       delay_br := None; delay_l := None; delay_ms := delay_ms value |} in
  if String.eqb mode "all" then
    {| delay_i := Some IndexAll; delay_sq := delay_sq cleared;
       delay_rsq := delay_rsq cleared; delay_br := delay_br cleared;
       delay_l := delay_l cleared; delay_ms := delay_ms cleared |}
  else if String.eqb mode "index" then
    {| delay_i := Some (IndexNumber 0); delay_sq := delay_sq cleared;
       delay_rsq := delay_rsq cleared; delay_br := delay_br cleared;
       delay_l := delay_l cleared; delay_ms := delay_ms cleared |}
  else if String.eqb mode "sequence" then
    {| delay_i := delay_i cleared; delay_sq := Some 0%Z;
       delay_rsq := delay_rsq cleared; delay_br := delay_br cleared;
       delay_l := delay_l cleared; delay_ms := delay_ms cleared |}
  else if String.eqb mode "relative" then
    {| delay_i := delay_i cleared; delay_sq := delay_sq cleared;
       delay_rsq := Some 0%Z; delay_br := delay_br cleared;
       delay_l := delay_l cleared; delay_ms := delay_ms cleared |}
  else if String.eqb mode "bitrate" then
    {| delay_i := delay_i cleared; delay_sq := delay_sq cleared;
       delay_rsq := delay_rsq cleared; delay_br := Some 1000000%Z;
       delay_l := delay_l cleared; delay_ms := delay_ms cleared |}
  else if String.eqb mode "ladder" then
    {| delay_i := delay_i cleared; delay_sq := delay_sq cleared;
       delay_rsq := delay_rsq cleared; delay_br := delay_br cleared;
       delay_l := Some 1%Z; delay_ms := delay_ms cleared |}
  else cleared.

(** The targeting fields of a descriptor that are set. *)
Definition isSet {A : Type} (field : option A) : nat :=
  match field with Some _ => 1 | None => 0 end.

Definition targetingFieldsSet (value : Delay) : nat :=
  isSet (delay_i value) + isSet (delay_sq value) + isSet (delay_rsq value) +
  isSet (delay_br value) + isSet (delay_l value).

(** The options of the targeting selector. *)
Definition targetingModes : list string :=
  ["none"; "all"; "index"; "sequence"; "relative"; "bitrate"; "ladder"].

(** *** More sample data *)

Definition sampleEnv : Env :=
  {| PUBLIC_HOSTNAME := Some "chaos.example.com";
     PUBLIC_PORT := Some "443";
     PORT := Some "3001";
     PUBLIC_PROTOCOL := Some "https" |}.


(** A file in which [demo]/[hls] occurs twice. *)
Definition sampleFileWithDuplicate : Disk :=
  {| content := Holds [sampleUpdated; sampleOther; sampleConfig];
     writable := true |}.


(** ** Strings *)

Section StringFacts.

Lemma append_nil_r (s : string) : s ++ "" = s.
Proof. induction s as [|c s IH]; simpl; [reflexivity | now rewrite IH]. Qed.

Lemma append_assoc (a b c : string) : (a ++ b) ++ c = a ++ (b ++ c).
Proof. induction a as [|x a IH]; simpl; [reflexivity | now rewrite IH]. Qed.

Lemma length_append (a b : string) :
  String.length (a ++ b) = String.length a + String.length b.
Proof. induction a as [|x a IH]; simpl; [reflexivity | now rewrite IH]. Qed.

Lemma append_inj_l (a b c : string) : a ++ b = a ++ c -> b = c.
Proof.
  induction a as [|x a IH]; simpl; intros H; [exact H|].
  injection H as H. now apply IH.
Qed.

(** Two strings that end in different characters differ. *)
Lemma append_last_inj (a b : string) (x y : ascii) :
  a ++ String x "" = b ++ String y "" -> a = b /\ x = y.
Proof.
  revert b; induction a as [|c a IH]; intros [|d b] H; simpl in H.
  - injection H as ->. now split.
  - injection H as _ H. destruct b; discriminate.
  - injection H as _ H. destruct a; discriminate.
  - injection H as -> H. destruct (IH _ H) as [-> ->]. now split.
Qed.

Lemma substring_prefix (a b : string) :
  substring 0 (String.length a) (a ++ b) = a.
Proof.
  induction a as [|x a IH]; simpl.
  - destruct b; reflexivity.
  - now rewrite IH.
Qed.

Lemma endsWith_append (a suffix : string) :
  JS.endsWith (a ++ suffix) suffix = true.
Proof.
  induction a as [|x a IH].
  - destruct suffix as [|c r]; cbn [append JS.endsWith];
      now rewrite String.eqb_refl.
  - cbn [append JS.endsWith]. rewrite IH.
    now destruct (String.eqb (String x (a ++ suffix)) suffix).
Qed.

(** What [endsWith] finds is a suffix indeed. *)
Lemma endsWith_inv (s suffix : string) :
  JS.endsWith s suffix = true -> exists a, s = a ++ suffix.
Proof.
  induction s as [|x s IH]; cbn [JS.endsWith].
  - destruct suffix; simpl; [|discriminate]. intros _. now exists "".
  - destruct (String.eqb (String x s) suffix) eqn:E.
    + apply String.eqb_eq in E. intros _. now exists "".
    + intros H. destruct (IH H) as [a ->]. now exists (String x a).
Qed.

Lemma sliceDropLast_append (a suffix : string) :
  JS.sliceDropLast (String.length suffix) (a ++ suffix) = a.
Proof.
  unfold JS.sliceDropLast. rewrite length_append.
  replace (String.length a + String.length suffix - String.length suffix)
    with (String.length a) by lia.
  apply substring_prefix.
Qed.

Lemma quoteFree_append (a b : string) :
  quoteFree (a ++ b) = quoteFree a && quoteFree b.
Proof.
  induction a as [|x a IH]; simpl; [reflexivity|].
  rewrite IH. now rewrite andb_assoc.
Qed.

Lemma quoteFree_uint (d : Decimal.uint) :
  quoteFree (NilEmpty.string_of_uint d) = true.
Proof. induction d; simpl; auto. Qed.

Lemma quoteFree_number (n : Z) : quoteFree (JS.numberToString n) = true.
Proof.
  unfold JS.numberToString.
  destruct (Z.to_int n); simpl; apply quoteFree_uint.
Qed.

End StringFacts.

(** ** Insertion-ordered maps: lookup, update and order *)

Module OrderedMapFacts.

Import OrderedMap.

Section WithValues.

Context {V : Type}.

Implicit Types (m : OrderedMap.t V) (k : string) (v : V).

Local Ltac key_cases k' k :=
  let E := fresh "E" in
  destruct (String.eqb k' k) eqn:E;
  [apply String.eqb_eq in E; subst | apply String.eqb_neq in E].

Lemma has_In k m : has k m = true <-> In k (keys m).
Proof.
  induction m as [|[k' v'] m IH]; simpl.
  - split; [discriminate | tauto].
  - key_cases k' k; [tauto|].
    rewrite IH. split; [tauto | intros [H|H]; [contradiction | exact H]].
Qed.

Lemma has_not_In k m : has k m = false <-> ~ In k (keys m).
Proof.
  rewrite <- has_In. destruct (has k m); split; congruence.
Qed.

Lemma has_get k m : has k m = true <-> exists v, get k m = Some v.
Proof.
  induction m as [|[k' v'] m IH]; simpl.
  - split; [discriminate | intros [v H]; discriminate].
  - key_cases k' k; [|exact IH].
    split; [intros _; now exists v' | reflexivity].
Qed.

Lemma get_set_same k v m : get k (set k v m) = Some v.
Proof.
  induction m as [|[k' v'] m IH]; simpl.
  - now rewrite String.eqb_refl.
  - destruct (String.eqb k' k) eqn:E; simpl; rewrite E; [reflexivity | exact IH].
Qed.

Lemma get_set_other k k' v m : k <> k' -> get k' (set k v m) = get k' m.
Proof.
  intros Hne. induction m as [|[k0 v0] m IH]; simpl.
  - now rewrite (proj2 (String.eqb_neq k k') Hne).
  - destruct (String.eqb k0 k) eqn:E; simpl.
    + apply String.eqb_eq in E; subst.
      now rewrite (proj2 (String.eqb_neq k k') Hne).
    + now rewrite IH.
Qed.

Lemma get_remove_other k k' m : k <> k' -> get k' (remove k m) = get k' m.
Proof.
  intros Hne. induction m as [|[k0 v0] m IH]; simpl; [reflexivity|].
  destruct (String.eqb k0 k) eqn:E; simpl.
  - apply String.eqb_eq in E; subst.
    now rewrite (proj2 (String.eqb_neq k k') Hne).
  - now rewrite IH.
Qed.

Lemma remove_absent k m : has k m = false -> remove k m = m.
Proof.
  induction m as [|[k' v'] m IH]; simpl; [reflexivity|].
  destruct (String.eqb k' k); [discriminate|].
  intros H. now rewrite IH.
Qed.

Lemma set_absent k v m : has k m = false -> set k v m = (m ++ [(k, v)])%list.
Proof.
  induction m as [|[k' v'] m IH]; simpl; [reflexivity|].
  destruct (String.eqb k' k); [discriminate|].
  intros H. now rewrite IH.
Qed.

(** Under the uniqueness of keys, removing a key is filtering it out. *)
Lemma remove_filter k m :
  wf m -> remove k m = filter (fun kv => negb (String.eqb (fst kv) k)) m.
Proof.
  unfold wf. induction m as [|[k' v'] m IH]; simpl; [reflexivity|].
  intros Hnd. inversion Hnd as [|? ? Hnotin Hnd']; subst.
  key_cases k' k; simpl.
  - apply has_not_In in Hnotin.
    rewrite <- (IH Hnd'). symmetry. now apply remove_absent.
  - now rewrite (IH Hnd').
Qed.

Lemma keys_filter (p : string -> bool) m :
  keys (filter (fun kv => p (fst kv)) m) = filter p (keys m).
Proof.
  induction m as [|[k' v'] m IH]; simpl; [reflexivity|].
  destruct (p k'); simpl; now rewrite IH.
Qed.

Lemma wf_remove k m : wf m -> wf (remove k m).
Proof.
  intros Hwf. rewrite (remove_filter k m Hwf). unfold wf.
  rewrite (keys_filter (fun k' => negb (String.eqb k' k))).
  now apply NoDup_filter.
Qed.

Lemma has_remove_same k m : wf m -> has k (remove k m) = false.
Proof.
  intros Hwf. apply has_not_In. rewrite (remove_filter k m Hwf).
  rewrite (keys_filter (fun k' => negb (String.eqb k' k))).
  intros Hin. apply filter_In in Hin. destruct Hin as [_ H].
  now rewrite String.eqb_refl in H.
Qed.

Lemma keys_set k v m :
  keys (set k v m) = if has k m then keys m else (keys m ++ [k])%list.
Proof.
  induction m as [|[k' v'] m IH]; simpl; [reflexivity|].
  destruct (String.eqb k' k); simpl; [reflexivity|].
  rewrite IH. now destruct (has k m).
Qed.

Lemma wf_set k v m : wf m -> wf (set k v m).
Proof.
  unfold wf. intros Hnd. rewrite keys_set.
  destruct (has k m) eqn:E; [exact Hnd|].
  apply has_not_In in E.
  apply NoDup_app; [exact Hnd | repeat constructor; intros [] |].
  intros a Ha [<-|[]]. contradiction.
Qed.

Lemma upsert_spec k v m :
  wf m ->
  upsert k v m =
  (filter (fun kv => negb (String.eqb (fst kv) k)) m ++ [(k, v)])%list.
Proof.
  intros Hwf. unfold upsert, delete. simpl.
  rewrite <- (remove_filter k m Hwf).
  destruct (has k m) eqn:E.
  - apply set_absent. now apply has_remove_same.
  - rewrite (remove_absent k m E). now apply set_absent.
Qed.

Lemma wf_upsert k v m : wf m -> wf (upsert k v m).
Proof.
  intros Hwf. unfold upsert, delete. simpl. apply wf_set.
  destruct (has k m); [now apply wf_remove | exact Hwf].
Qed.

Lemma get_upsert_same k v m : get k (upsert k v m) = Some v.
Proof. apply get_set_same. Qed.

Lemma get_upsert_other k k' v m :
  k <> k' -> get k' (upsert k v m) = get k' m.
Proof.
  intros Hne. unfold upsert, delete. simpl.
  rewrite (get_set_other k k' v _ Hne).
  destruct (has k m); [now apply get_remove_other | reflexivity].
Qed.

Lemma count_upsert k v m : wf m -> count k (upsert k v m) = 1.
Proof.
  intros Hwf. rewrite (upsert_spec k v m Hwf). unfold count.
  rewrite filter_app. simpl. rewrite String.eqb_refl.
  rewrite length_app. simpl.
  replace (filter _ (filter _ m)) with (@nil (string * V)); [reflexivity|].
  symmetry. induction m as [|[k' v'] m IH]; simpl; [reflexivity|].
  unfold wf in Hwf. simpl in Hwf. inversion Hwf; subst.
  destruct (String.eqb k' k) eqn:E; simpl; [now apply IH|].
  rewrite E. now apply IH.
Qed.

Lemma get_app_absent k m m' :
  has k m = false -> get k (m ++ m')%list = get k m'.
Proof.
  induction m as [|[k' v'] m IH]; simpl; [reflexivity|].
  destruct (String.eqb k' k); [discriminate | exact IH].
Qed.

Lemma get_app_present k m m' v :
  get k m = Some v -> get k (m ++ m')%list = Some v.
Proof.
  induction m as [|[k' v'] m IH]; simpl; [discriminate|].
  destruct (String.eqb k' k); [tauto | exact IH].
Qed.

Lemma get_none_has k m : get k m = None <-> has k m = false.
Proof.
  induction m as [|[k' v'] m IH]; simpl; [tauto|].
  destruct (String.eqb k' k); [split; discriminate | exact IH].
Qed.

(** With unique keys the order of the entries does not matter to a
    lookup. *)
Lemma get_rev k m : wf m -> get k (rev m) = get k m.
Proof.
  unfold wf. induction m as [|[k' v'] m IH]; simpl; [reflexivity|].
  intros Hnd. inversion Hnd as [|? ? Hnotin Hnd']; subst.
  specialize (IH Hnd').
  destruct (get k m) as [v|] eqn:G.
  - rewrite (get_app_present k (rev m) _ v IH).
    key_cases k' k; [|reflexivity].
    exfalso. apply Hnotin. apply has_In. apply has_get. now exists v.
  - apply get_none_has in IH. rewrite (get_app_absent k _ _ IH). simpl.
    now destruct (String.eqb k' k).
Qed.

Lemma keys_rev m : keys (rev m) = rev (keys m).
Proof. unfold keys. now rewrite map_rev. Qed.

Lemma wf_rev m : wf m -> wf (rev m).
Proof. unfold wf. rewrite keys_rev. apply NoDup_rev. Qed.

End WithValues.

End OrderedMapFacts.

(** ** The store: keys, invariant, and what each operation does to the map *)

Section StoreFacts.

Import OrderedMap OrderedMapFacts.

(** The composite key identifies the pair (name, protocol). *)
Lemma getKey_inj (n n' : string) (p p' : Protocol) :
  getKey n p = getKey n' p' -> n = n' /\ p = p'.
Proof.
  unfold getKey. destruct p, p'; simpl; intros H.
  - change (n ++ ":hls") with (n ++ ":hl" ++ "s") in H.
    change (n' ++ ":hls") with (n' ++ ":hl" ++ "s") in H.
    rewrite <- !append_assoc in H. apply append_last_inj in H as [H _].
    change (n ++ ":hl") with (n ++ ":h" ++ "l") in H.
    change (n' ++ ":hl") with (n' ++ ":h" ++ "l") in H.
    rewrite <- !append_assoc in H. apply append_last_inj in H as [H _].
    change (n ++ ":h") with (n ++ ":" ++ "h") in H.
    change (n' ++ ":h") with (n' ++ ":" ++ "h") in H.
    rewrite <- !append_assoc in H. apply append_last_inj in H as [H _].
    apply append_last_inj in H as [H _]. now split.
  - change (n ++ ":hls") with (n ++ ":hl" ++ "s") in H.
    change (n' ++ ":dash") with (n' ++ ":das" ++ "h") in H.
    rewrite <- !append_assoc in H. apply append_last_inj in H as [_ H].
    discriminate.
  - change (n ++ ":dash") with (n ++ ":das" ++ "h") in H.
    change (n' ++ ":hls") with (n' ++ ":hl" ++ "s") in H.
    rewrite <- !append_assoc in H. apply append_last_inj in H as [_ H].
    discriminate.
  - change (n ++ ":dash") with (n ++ ":das" ++ "h") in H.
    change (n' ++ ":dash") with (n' ++ ":das" ++ "h") in H.
    rewrite <- !append_assoc in H. apply append_last_inj in H as [H _].
    change (n ++ ":das") with (n ++ ":da" ++ "s") in H.
    change (n' ++ ":das") with (n' ++ ":da" ++ "s") in H.
    rewrite <- !append_assoc in H. apply append_last_inj in H as [H _].
    change (n ++ ":da") with (n ++ ":d" ++ "a") in H.
    change (n' ++ ":da") with (n' ++ ":d" ++ "a") in H.
    rewrite <- !append_assoc in H. apply append_last_inj in H as [H _].
    change (n ++ ":d") with (n ++ ":" ++ "d") in H.
    change (n' ++ ":d") with (n' ++ ":" ++ "d") in H.
    rewrite <- !append_assoc in H. apply append_last_inj in H as [H _].
    apply append_last_inj in H as [H _]. now split.
Qed.

Lemma getKey_protocol_neq (n : string) (p q : Protocol) :
  p <> q -> getKey n p <> getKey n q.
Proof. intros Hne H. apply getKey_inj in H. tauto. Qed.

Lemma keyOf_eq (c c' : ChaosProxyConfig) :
  name c = name c' -> protocol c = protocol c' -> keyOf c = keyOf c'.
Proof. unfold keyOf. now intros -> ->. Qed.

Lemma configs_saveToFile (s : Store) : configs (saveToFile s) = configs s.
Proof. unfold saveToFile. now destruct (writable (disk s)). Qed.

Lemma configs_saveConfig (c : ChaosProxyConfig) (s : Store) :
  configs (saveConfig c s) = upsert (keyOf c) c (configs s).
Proof. unfold saveConfig. now rewrite configs_saveToFile. Qed.

Lemma configs_deleteConfig (n : string) (p : Protocol) (s : Store) :
  configs (snd (deleteConfig n p s)) = remove (getKey n p) (configs s).
Proof.
  unfold deleteConfig, delete.
  destruct (has (getKey n p) (configs s)); simpl;
    [apply configs_saveToFile | reflexivity].
Qed.

(** *** The invariant of the reachable stores *)

Lemma consistent_filter (p : string * ChaosProxyConfig -> bool) m :
  consistent m -> consistent (filter p m).
Proof.
  unfold consistent. rewrite !Forall_forall.
  intros H kv Hin. apply filter_In in Hin. now apply H.
Qed.

Lemma consistent_upsert (c : ChaosProxyConfig) m :
  wf m -> consistent m -> consistent (upsert (keyOf c) c m).
Proof.
  intros Hwf Hc. rewrite (upsert_spec _ _ _ Hwf).
  apply Forall_app. split; [now apply consistent_filter|].
  now repeat constructor.
Qed.

Lemma StoreInv_saveToFile (s : Store) : StoreInv s -> StoreInv (saveToFile s).
Proof. unfold StoreInv. now rewrite configs_saveToFile. Qed.

Lemma StoreInv_saveConfig (c : ChaosProxyConfig) (s : Store) :
  StoreInv s -> StoreInv (saveConfig c s).
Proof.
  unfold StoreInv. rewrite configs_saveConfig. intros [Hwf Hc].
  split; [now apply wf_upsert | now apply consistent_upsert].
Qed.

Lemma StoreInv_deleteConfig (n : string) (p : Protocol) (s : Store) :
  StoreInv s -> StoreInv (snd (deleteConfig n p s)).
Proof.
  unfold StoreInv. rewrite configs_deleteConfig. intros [Hwf Hc].
  split; [now apply wf_remove|].
  rewrite (remove_filter _ _ Hwf). now apply consistent_filter.
Qed.

Lemma consistent_set (c : ChaosProxyConfig) m :
  consistent m -> consistent (set (keyOf c) c m).
Proof.
  unfold consistent. induction 1 as [|[k v] m Hkv Hm IH]; simpl.
  - now repeat constructor.
  - destruct (String.eqb k (keyOf c)) eqn:E.
    + apply String.eqb_eq in E. simpl in *. subst k. now constructor.
    + now constructor.
Qed.

Lemma StoreInv_loadFromFile (s : Store) : StoreInv s -> StoreInv (loadFromFile s).
Proof.
  unfold loadFromFile. destruct (content (disk s)) as [| |records]; trivial.
  unfold StoreInv. simpl. generalize (configs s).
  induction records as [|c records IH]; simpl; [trivial|].
  intros m [Hwf Hc]. apply IH.
  split; [now apply wf_set | now apply consistent_set].
Qed.

Lemma StoreInv_newStore (d : Disk) : StoreInv (newStore d).
Proof.
  apply StoreInv_loadFromFile. split; [constructor | constructor].
Qed.

(** Every store the program can be in satisfies the invariant. *)
Lemma Reachable_StoreInv (s : Store) : Reachable s -> StoreInv s.
Proof.
  induction 1 as [d | c s _ IH | n p s _ IH].
  - apply StoreInv_newStore.
  - now apply StoreInv_saveConfig.
  - now apply StoreInv_deleteConfig.
Qed.

Lemma StoreInv_saveAll (cs : list ChaosProxyConfig) (s : Store) :
  StoreInv s -> StoreInv (saveAll cs s).
Proof.
  unfold saveAll. revert s. induction cs as [|c cs IH]; simpl; [trivial|].
  intros s Hs. apply IH. now apply StoreInv_saveConfig.
Qed.

(** *** Order of [listConfigs] *)

Lemma values_filter_key (c : ChaosProxyConfig) m :
  consistent m ->
  values (filter (fun kv => negb (String.eqb (fst kv) (keyOf c))) m) =
  filter (otherKey c) (values m).
Proof.
  unfold consistent, values.
  induction 1 as [|[k v] m Hkv Hm IH]; simpl; [reflexivity|].
  simpl in Hkv. subst k. unfold otherKey, sameKey in *.
  destruct (String.eqb (keyOf v) (keyOf c)); simpl; now rewrite IH.
Qed.

(** A save puts the record first and leaves the others in the order they
    were in. *)
Lemma listConfigs_saveConfig (c : ChaosProxyConfig) (s : Store) :
  StoreInv s ->
  listConfigs (saveConfig c s) = c :: filter (otherKey c) (listConfigs s).
Proof.
  intros [Hwf Hc]. unfold listConfigs.
  rewrite configs_saveConfig, (upsert_spec _ _ _ Hwf).
  unfold values at 1. rewrite map_app, rev_app_distr. simpl.
  f_equal. rewrite filter_rev. f_equal.
  now apply values_filter_key.
Qed.

Lemma otherKey_filter_comm (a b : ChaosProxyConfig) l :
  filter (otherKey a) (filter (otherKey b) l) =
  filter (otherKey b) (filter (otherKey a) l).
Proof.
  induction l as [|x l IH]; simpl; [reflexivity|].
  destruct (otherKey b x) eqn:Eb, (otherKey a x) eqn:Ea; simpl;
    rewrite ?Ea, ?Eb, IH; reflexivity.
Qed.

Lemma otherKey_filter_absorb (c x : ChaosProxyConfig) l :
  otherKey c x = false ->
  filter (otherKey c) (filter (otherKey x) l) = filter (otherKey c) l.
Proof.
  intros Hx. induction l as [|y l IH]; simpl; [reflexivity|].
  unfold otherKey, sameKey in *.
  apply negb_false_iff, String.eqb_eq in Hx.
  destruct (String.eqb (keyOf y) (keyOf x)) eqn:Ex; simpl.
  - apply String.eqb_eq in Ex.
    replace (String.eqb (keyOf y) (keyOf c)) with true
      by (symmetry; apply String.eqb_eq; congruence).
    simpl. exact IH.
  - now rewrite IH.
Qed.

Lemma sameKey_otherKey_filter (c : ChaosProxyConfig) l :
  filter (sameKey c) (filter (otherKey c) l) = [].
Proof.
  induction l as [|x l IH]; simpl; [reflexivity|].
  unfold otherKey at 1. destruct (sameKey c x) eqn:E; simpl; [exact IH|].
  now rewrite E.
Qed.

Lemma mostRecentFirst_filter (c : ChaosProxyConfig) l :
  mostRecentFirst (filter (otherKey c) l) =
  filter (otherKey c) (mostRecentFirst l).
Proof.
  induction l as [|x l IH]; simpl; [reflexivity|].
  destruct (otherKey c x) eqn:E; simpl.
  - rewrite IH. f_equal. apply otherKey_filter_comm.
  - rewrite IH. symmetry. now apply otherKey_filter_absorb.
Qed.

Lemma otherKey_filter_idem (c : ChaosProxyConfig) l :
  filter (otherKey c) (filter (otherKey c) l) = filter (otherKey c) l.
Proof.
  induction l as [|x l IH]; simpl; [reflexivity|].
  destruct (otherKey c x) eqn:E; simpl; rewrite ?E, IH; reflexivity.
Qed.

Lemma mostRecentFirst_front (pre : list ChaosProxyConfig) c l :
  mostRecentFirst (pre ++ c :: filter (otherKey c) l)%list =
  mostRecentFirst (pre ++ c :: l)%list.
Proof.
  induction pre as [|x pre IH]; simpl.
  - f_equal. rewrite mostRecentFirst_filter. apply otherKey_filter_idem.
  - now rewrite IH.
Qed.

(** A list with one record per key is already in that form. *)
Lemma mostRecentFirst_NoDup l :
  NoDup (map keyOf l) -> mostRecentFirst l = l.
Proof.
  induction l as [|x l IH]; simpl; [reflexivity|].
  intros Hnd. inversion Hnd as [|? ? Hnotin Hnd']; subst.
  rewrite (IH Hnd'). f_equal.
  apply forallb_filter_id. apply forallb_forall. intros y Hy.
  unfold otherKey, sameKey. apply negb_true_iff, String.eqb_neq.
  intros E. apply Hnotin. rewrite <- E. now apply in_map.
Qed.

Lemma keys_values_consistent m :
  consistent m -> map keyOf (values m) = keys m.
Proof.
  unfold consistent, values, keys.
  induction 1 as [|[k v] m Hkv Hm IH]; simpl; [reflexivity|].
  simpl in Hkv. now rewrite IH, Hkv.
Qed.

Lemma listConfigs_NoDup (s : Store) :
  StoreInv s -> NoDup (map keyOf (listConfigs s)).
Proof.
  intros [Hwf Hc]. unfold listConfigs. rewrite map_rev.
  apply NoDup_rev. now rewrite keys_values_consistent.
Qed.

(** After any run of saves, [listConfigs] is the latest record of every
    key, the most recently saved first, followed by the untouched records
    in the order they had. *)
Lemma listConfigs_saveAll (cs : list ChaosProxyConfig) (s : Store) :
  StoreInv s ->
  listConfigs (saveAll cs s) = mostRecentFirst (rev cs ++ listConfigs s)%list.
Proof.
  unfold saveAll. revert s. induction cs as [|c cs IH]; simpl; intros s Hs.
  - symmetry. apply mostRecentFirst_NoDup. now apply listConfigs_NoDup.
  - rewrite (IH _ (StoreInv_saveConfig c s Hs)).
    rewrite (listConfigs_saveConfig c s Hs).
    rewrite <- app_assoc. simpl. apply mostRecentFirst_front.
Qed.

(** *** Reloading what was written *)

Lemma load_fresh (records : list ChaosProxyConfig) m :
  NoDup (keys m ++ map keyOf records)%list ->
  fold_left (fun acc config => set (keyOf config) config acc) records m =
  (m ++ map (fun config => (keyOf config, config)) records)%list.
Proof.
  revert m. induction records as [|c records IH]; simpl; intros m Hnd.
  - now rewrite app_nil_r.
  - assert (Habs : has (keyOf c) m = false).
    { apply has_not_In. intros Hin.
      apply NoDup_remove_2 in Hnd. apply Hnd. apply in_or_app. now left. }
    rewrite (set_absent _ _ _ Habs). rewrite IH.
    + now rewrite <- app_assoc.
    + unfold keys in *. rewrite map_app, <- app_assoc. exact Hnd.
Qed.

Lemma entries_of_values m :
  consistent m -> map (fun config => (keyOf config, config)) (values m) = m.
Proof.
  unfold consistent, values.
  induction 1 as [|[k v] m Hkv Hm IH]; simpl; [reflexivity|].
  simpl in Hkv. now rewrite IH, Hkv.
Qed.

(** Writing the file and building a new store from it gives the entries
    in the opposite order. *)
Lemma configs_reload (s : Store) :
  StoreInv s -> writable (disk s) = true ->
  configs (newStore (disk (saveToFile s))) = rev (configs s).
Proof.
  intros [Hwf Hc] Hw. unfold newStore, loadFromFile, saveToFile.
  rewrite Hw. simpl. rewrite load_fresh.
  - simpl. rewrite map_rev. f_equal. now apply entries_of_values.
  - simpl. rewrite map_rev. apply NoDup_rev.
    now rewrite keys_values_consistent.
Qed.

End StoreFacts.

(** ** The encoder against the wire format *)

Section EncoderFacts.

Local Ltac split_options :=
  repeat match goal with
         | o : option IndexValue |- _ => destruct o as [[?|]|]
         | o : option Z |- _ => destruct o as [?|]
         end.

(** The object built field by field and then serialized is the object of
    the wire format. *)
Lemma toUnquotedJson_object (c : Corruption) :
  toUnquotedJson (corruptionObject c) = Some (spec_object c).
Proof.
  destruct c as [[i sq rsq br l ms]|[i sq rsq br code]|[i sq rsq br]|[i sq rsq br rate]];
    split_options; reflexivity.
Qed.

Lemma toUnquotedJson_array (cs : list Corruption) :
  toUnquotedJson (JS.Array (map corruptionObject cs)) = Some (spec_array cs).
Proof.
  cbn [toUnquotedJson]. unfold JS.join, spec_array.
  do 4 f_equal. rewrite !map_map.
  apply map_ext. intros c. now rewrite toUnquotedJson_object.
Qed.

Lemma concat_push (sep : string) (parts : list string) (x : string) :
  parts <> [] ->
  String.concat sep (push parts x) = String.concat sep parts ++ sep ++ x.
Proof.
  unfold push. induction parts as [|a parts IH]; [congruence|]. intros _.
  destruct parts as [|b parts]; [reflexivity|].
  change (String.concat sep ((a :: b :: parts) ++ [x])%list)
    with (a ++ sep ++ String.concat sep ((b :: parts) ++ [x])%list).
  rewrite IH by discriminate.
  change (String.concat sep (a :: b :: parts))
    with (a ++ sep ++ String.concat sep (b :: parts)).
  now rewrite !append_assoc.
Qed.

Lemma pushCorruptions_nonempty {A : Type} param (f : A -> JS.Value) items parts :
  parts <> [] -> pushCorruptions param f items parts <> [].
Proof.
  unfold pushCorruptions, push. intros H.
  destruct (Nat.ltb 0 (List.length items)); [|exact H].
  destruct parts; [congruence | discriminate].
Qed.

(** One guarded [push] adds the parameter of the wire format. *)
Lemma concat_pushCorruptions {A : Type} param (inj : A -> Corruption)
    (items : list A) (parts : list string) :
  parts <> [] ->
  String.concat "&"
    (pushCorruptions param (fun a => corruptionObject (inj a)) items parts) =
  String.concat "&" parts ++ spec_param param (map inj items).
Proof.
  intros Hne. unfold pushCorruptions.
  destruct items as [|a items]; simpl List.length; cbn [Nat.ltb Nat.leb].
  - simpl. now rewrite append_nil_r.
  - rewrite (concat_push _ _ _ Hne).
    rewrite <- (map_map inj corruptionObject), toUnquotedJson_array.
    reflexivity.
Qed.

Lemma encodeProxyUrl_spec (config : ChaosProxyConfig) (url : string) :
  sourceUrl config = Some url -> url <> "" ->
  encodeProxyUrl config =
  Some (instanceUrl config ++ endpointOf (protocol config) ++ "?" ++
        spec_query url config).
Proof.
  intros Hsrc Hne. unfold encodeProxyUrl. rewrite Hsrc.
  destruct url as [|ch url]; [congruence|].
  do 4 f_equal. unfold spec_query.
  set (p0 := push [] ("url=" ++ String ch url)).
  assert (H0 : p0 <> []) by discriminate.
  change delayObject with (fun d => corruptionObject (OfDelay d)).
  change statusCodeObject with (fun x => corruptionObject (OfStatusCode x)).
  change timeoutObject with (fun t => corruptionObject (OfTimeout t)).
  change throttleObject with (fun t => corruptionObject (OfThrottle t)).
  rewrite concat_pushCorruptions
    by (repeat apply pushCorruptions_nonempty; exact H0).
  rewrite concat_pushCorruptions
    by (repeat apply pushCorruptions_nonempty; exact H0).
  rewrite concat_pushCorruptions
    by (repeat apply pushCorruptions_nonempty; exact H0).
  rewrite concat_pushCorruptions by exact H0.
  subst p0. cbn [push app String.concat].
  now rewrite !append_assoc.
Qed.

Lemma encodeProxyUrl_none (config : ChaosProxyConfig) :
  sourceUrl config = None \/ sourceUrl config = Some "" ->
  encodeProxyUrl config = None.
Proof. unfold encodeProxyUrl. now intros [-> | ->]. Qed.

(** The encoder never answers the empty string. *)
Lemma encodeProxyUrl_not_empty (config : ChaosProxyConfig) :
  encodeProxyUrl config <> Some "".
Proof.
  unfold encodeProxyUrl.
  destruct (sourceUrl config) as [[|ch url]|]; try discriminate.
  intros H. injection H as H. apply (f_equal String.length) in H.
  rewrite !length_append in H.
  destruct (protocol config); simpl in H; lia.
Qed.

(** *** No quote in a serialized descriptor *)

Lemma quoteFree_concat (sep : string) (parts : list string) :
  quoteFree sep = true ->
  Forall (fun part => quoteFree part = true) parts ->
  quoteFree (String.concat sep parts) = true.
Proof.
  intros Hsep. induction 1 as [|a parts Ha Hparts IH]; [reflexivity|].
  destruct parts as [|b parts]; [exact Ha|].
  change (String.concat sep (a :: b :: parts))
    with (a ++ sep ++ String.concat sep (b :: parts)).
  now rewrite !quoteFree_append, Ha, Hsep, IH.
Qed.

Lemma quoteFree_present (fields : list (string * option string)) :
  Forall (fun kv => quoteFree (fst kv) = true /\
                    forall v, snd kv = Some v -> quoteFree v = true) fields ->
  Forall (fun part => quoteFree part = true) (spec_present fields).
Proof.
  induction 1 as [|[k [v|]] fields [Hk Hv] Hfields IH]; simpl;
    [constructor | | exact IH].
  constructor; [|exact IH].
  simpl in Hk. rewrite !quoteFree_append, Hk. simpl.
  now apply Hv.
Qed.

Lemma quoteFree_index (i : IndexValue) : quoteFree (spec_index i) = true.
Proof. destruct i; [apply quoteFree_number | reflexivity]. Qed.

Lemma quoteFree_fields (c : Corruption) :
  Forall (fun kv => quoteFree (fst kv) = true /\
                    forall v, snd kv = Some v -> quoteFree v = true)
         (spec_fields c).
Proof.
  destruct c as [d|s|t|t]; simpl;
    repeat first [apply Forall_nil | apply Forall_cons];
    (split; [reflexivity|]); simpl;
    intros v Hv;
    match type of Hv with
    | option_map _ ?o = _ => destruct o; simpl in Hv; [injection Hv as <- | discriminate]
    end;
    (apply quoteFree_index || apply quoteFree_number).
Qed.

Lemma quoteFree_object (c : Corruption) : quoteFree (spec_object c) = true.
Proof.
  unfold spec_object. rewrite !quoteFree_append. simpl.
  rewrite andb_true_r.
  apply quoteFree_concat; [reflexivity|].
  apply quoteFree_present, quoteFree_fields.
Qed.

End EncoderFacts.

(** ** The redirect resolver *)

Section RouteFacts.

Import OrderedMap OrderedMapFacts.

Lemma parseFilename_redirectFilename (n : string) (p : Protocol) :
  parseFilename (redirectFilename n p) = Some (n, p).
Proof.
  unfold parseFilename, redirectFilename. destruct p; simpl extensionOf.
  - change (n ++ "." ++ "m3u8") with (n ++ ".m3u8").
    rewrite endsWith_append.
    pose proof (sliceDropLast_append n ".m3u8") as H.
    cbn [String.length] in H. now rewrite H.
  - change (n ++ "." ++ "mpd") with (n ++ ".mpd").
    destruct (JS.endsWith (n ++ ".mpd") ".m3u8") eqn:E.
    + apply endsWith_inv in E as [a E].
      change (n ++ ".mpd") with (n ++ ".mp" ++ "d") in E.
      change (a ++ ".m3u8") with (a ++ ".m3u" ++ "8") in E.
      rewrite <- !append_assoc in E.
      apply append_last_inj in E as [_ E]. discriminate.
    + rewrite endsWith_append.
      pose proof (sliceDropLast_append n ".mpd") as H.
      cbn [String.length] in H. now rewrite H.
Qed.

Lemma parseFilename_bad_extension (filename : string) :
  JS.endsWith filename ".m3u8" = false ->
  JS.endsWith filename ".mpd" = false ->
  parseFilename filename = None.
Proof. unfold parseFilename. now intros -> ->. Qed.

(** With the record in the store, the handler looks it up, runs the
    encoder, answers from its result, and leaves the store as it was. *)
Lemma getRedirect_found (filename n : string) (p : Protocol)
    (config : ChaosProxyConfig) (sv : Server) :
  parseFilename filename = Some (n, p) ->
  getConfig n p (store sv) = Some config ->
  getRedirect filename sv =
  (redirectAnswer (encodeProxyUrl config),
   {| store := store sv;
      calls := push (push (calls sv) (CallGetConfig n p))
                    (CallGenerateProxyUrl n p) |}).
Proof.
  intros Hparse Hget. unfold getRedirect. rewrite Hparse.
  unfold bind, callGetConfig, callGenerateProxyUrl, generateProxyUrl. simpl.
  rewrite Hget. simpl. rewrite Hget.
  unfold redirectAnswer.
  now destruct (encodeProxyUrl config) as [[|ch url]|].
Qed.

Lemma getRedirect_not_found (filename n : string) (p : Protocol) (sv : Server) :
  parseFilename filename = Some (n, p) ->
  getConfig n p (store sv) = None ->
  getRedirect filename sv =
  (Send 404 (notFoundText n p),
   {| store := store sv; calls := push (calls sv) (CallGetConfig n p) |}).
Proof.
  intros Hparse Hget. unfold getRedirect. rewrite Hparse.
  unfold bind, callGetConfig. simpl. now rewrite Hget.
Qed.

Lemma getConfig_saveConfig (c : ChaosProxyConfig) (s : Store) :
  getConfig (name c) (protocol c) (saveConfig c s) = Some c.
Proof.
  unfold getConfig. rewrite configs_saveConfig. apply get_upsert_same.
Qed.

Lemma getConfig_saveConfig_other (c : ChaosProxyConfig) (n : string)
    (p : Protocol) (s : Store) :
  keyOf c <> getKey n p ->
  getConfig n p (saveConfig c s) = getConfig n p s.
Proof.
  intros Hne. unfold getConfig. rewrite configs_saveConfig.
  now apply get_upsert_other.
Qed.

Lemma getConfig_deleteConfig_other (n n' : string) (p p' : Protocol) (s : Store) :
  getKey n p <> getKey n' p' ->
  getConfig n' p' (snd (deleteConfig n p s)) = getConfig n' p' s.
Proof.
  intros Hne. unfold getConfig. rewrite configs_deleteConfig.
  now apply get_remove_other.
Qed.

End RouteFacts.

(** ** The properties of the specification *)

(** C1. The query encoder writes every corruption descriptor in the wire
    format: bare keys, each set field as [key:value], unset fields left
    out, the wildcard index as the bare token [*] and no double quote
    anywhere. A Delay with wildcard targeting and [ms=1000] is
    [{i:*,ms:1000}]; a Timeout with only [br=2000000] is [{br:2000000}]. *)
Theorem encoder_wire_format :
  (forall c : Corruption,
      toUnquotedJson (corruptionObject c) = Some (spec_object c) /\
      quoteFree (spec_object c) = true /\
      (indexOf c = Some IndexAll ->
       exists rest, spec_object c = "{i:*" ++ rest)) /\
  toUnquotedJson
    (delayObject (mkDelay (Some IndexAll) None None None None (Some 1000%Z))) =
  Some "{i:*,ms:1000}" /\
  toUnquotedJson (timeoutObject (mkTimeout None None None (Some 2000000%Z))) =
  Some "{br:2000000}".
Proof.
  split; [|split; reflexivity].
  intros c. split; [apply toUnquotedJson_object|].
  split; [apply quoteFree_object|].
  intros Hi. unfold spec_object.
  destruct c as [d|s|t|t]; simpl in Hi; simpl spec_fields; rewrite Hi;
    match goal with
    | |- context [spec_present (?field :: ?fields)] =>
        change (spec_present (field :: fields))
          with ("i:*" :: spec_present fields);
        destruct (spec_present fields) as [|part parts]
    end; eexists; cbn [String.concat append]; reflexivity.
Qed.

(** C2. For a stored configuration with a non-empty source URL the proxy
    URL is the instance URL, the endpoint of the protocol, [?], then
    [url=] and the source URL as it is, then one parameter for each
    non-empty corruption list, [delay], [statusCode], [timeout],
    [throttle] in this order; an empty list adds nothing. *)
Theorem proxy_url_query_layout (s : Store) (n : string) (p : Protocol)
    (config : ChaosProxyConfig) (url : string) :
  getConfig n p s = Some config ->
  sourceUrl config = Some url ->
  url <> "" ->
  generateProxyUrl n p s =
  Some (instanceUrl config ++ endpointOf (protocol config) ++ "?" ++
        "url=" ++ url ++
        spec_param "delay" (map OfDelay (delays config)) ++
        spec_param "statusCode" (map OfStatusCode (statusCodes config)) ++
        spec_param "timeout" (map OfTimeout (timeouts config)) ++
        spec_param "throttle" (map OfThrottle (throttles config))).
Proof.
  intros Hget Hsrc Hne. unfold generateProxyUrl. rewrite Hget.
  apply (encodeProxyUrl_spec config url Hsrc Hne).
Qed.

Lemma proxy_url_query_layout_witness :
  generateProxyUrl "demo" hls sampleStore =
  Some ("https://chaos.example.com/api/v2/manifests/hls/proxy-master.m3u8" ++
        "?url=https://origin.example.com/live/master.m3u8" ++
        "&delay=[{i:*,ms:1000}]&timeout=[{br:2000000}]").
Proof.
  apply (proxy_url_query_layout sampleStore "demo" hls sampleConfig
           "https://origin.example.com/live/master.m3u8");
    [reflexivity | reflexivity | discriminate].
Defined.

(** Upsert. In every store the program can be in, saving twice under one
    (name, protocol) leaves one record under that key, the second payload,
    at the head of [listConfigs], the other records keeping their order;
    and after a run of saves [listConfigs] has the saved records first, the
    most recently saved at the head, then the records that were not saved
    again, in the order they were in. *)
Lemma save_upsert_moves_to_front (s : Store) (c1 c2 : ChaosProxyConfig) :
  StoreInv s ->
  name c1 = name c2 ->
  protocol c1 = protocol c2 ->
  let s2 := saveConfig c2 (saveConfig c1 s) in
  OrderedMap.count (keyOf c2) (configs s2) = 1 /\
  List.length (filter (sameKey c2) (listConfigs s2)) = 1 /\
  getConfig (name c2) (protocol c2) s2 = Some c2 /\
  listConfigs s2 = c2 :: filter (otherKey c2) (listConfigs s) /\
  (forall cs : list ChaosProxyConfig,
      listConfigs (saveAll cs s) = mostRecentFirst (rev cs ++ listConfigs s)%list).
Proof.
  intros Hs Hname Hproto s2.
  pose proof (StoreInv_saveConfig c1 s Hs) as Hs1.
  assert (Hlist : listConfigs s2 = c2 :: filter (otherKey c2) (listConfigs s)).
  { unfold s2. rewrite (listConfigs_saveConfig c2 _ Hs1).
    rewrite (listConfigs_saveConfig c1 s Hs). simpl.
    assert (Hsame : otherKey c2 c1 = false).
    { unfold otherKey, sameKey. rewrite (keyOf_eq c1 c2 Hname Hproto).
      now rewrite String.eqb_refl. }
    rewrite Hsame. f_equal. now apply otherKey_filter_absorb. }
  repeat split.
  - unfold s2. rewrite configs_saveConfig.
    apply OrderedMapFacts.count_upsert. apply Hs1.
  - rewrite Hlist. simpl. unfold sameKey at 1. rewrite String.eqb_refl. simpl.
    now rewrite sameKey_otherKey_filter.
  - apply getConfig_saveConfig.
  - exact Hlist.
  - intros cs. now apply listConfigs_saveAll.
Qed.

Lemma save_upsert_moves_to_front_example :
  let s2 := saveConfig sampleUpdated (saveConfig sampleConfig sampleStore) in
  OrderedMap.count (keyOf sampleUpdated) (configs s2) = 1 /\
  List.length (filter (sameKey sampleUpdated) (listConfigs s2)) = 1 /\
  getConfig "demo" hls s2 = Some sampleUpdated /\
  listConfigs s2 = [sampleUpdated; sampleDash; sampleOther] /\
  (forall cs : list ChaosProxyConfig,
      listConfigs (saveAll cs sampleStore) =
      mostRecentFirst (rev cs ++ listConfigs sampleStore)%list).
Proof.
  apply (save_upsert_moves_to_front sampleStore sampleConfig sampleUpdated);
    [|reflexivity|reflexivity].
  unfold sampleStore. do 3 apply StoreInv_saveConfig. apply StoreInv_newStore.
Qed.

(** In a store that started from no file, [listConfigs] is exactly the
    latest record of every key, most recently saved first. *)
Lemma listConfigs_from_empty (d : Disk) (cs : list ChaosProxyConfig) :
  content d = NoFile ->
  listConfigs (saveAll cs (newStore d)) = mostRecentFirst (rev cs).
Proof.
  intros Hd.
  rewrite (listConfigs_saveAll cs (newStore d) (StoreInv_newStore d)).
  unfold newStore, loadFromFile. cbn [disk]. rewrite Hd.
  unfold listConfigs. cbn. now rewrite app_nil_r.
Qed.

(** C3. [listConfigs] is to return the records most recently saved first.
    It does so until the process restarts: with [sampleConfig] saved first
    and [sampleOther] saved last, [listConfigs] is [sampleOther] then
    [sampleConfig]; the store built from the file that the last save wrote
    lists [sampleConfig] first, the oldest record, and a further save only
    puts its own record in front of that inverted order. *)
Theorem list_after_restart_oldest_first :
  let s := saveConfig sampleOther (saveConfig sampleConfig emptyStore) in
  let restarted := newStore (disk s) in
  listConfigs s = [sampleOther; sampleConfig] /\
  content (disk s) = Holds [sampleOther; sampleConfig] /\
  listConfigs restarted = [sampleConfig; sampleOther] /\
  listConfigs restarted <> mostRecentFirst (rev [sampleConfig; sampleOther]) /\
  listConfigs (saveConfig sampleDash restarted) =
  [sampleDash; sampleConfig; sampleOther].
Proof.
  cbv zeta. repeat split; try reflexivity. discriminate.
Qed.

(** C4. A configuration that was saved is what a fetch by its name and
    protocol returns, every field as it was given. *)
Theorem save_then_get (c : ChaosProxyConfig) (s : Store) :
  getConfig (name c) (protocol c) (saveConfig c s) = Some c.
Proof. apply getConfig_saveConfig. Qed.

(** C5. The entries of one name under [hls] and under [dash] are two
    records: a save or a delete under one protocol leaves what is stored
    under the other as it was, and both can be held at once. *)
Theorem protocols_independent (s : Store) (n : string) (p q : Protocol) :
  p <> q ->
  (forall c, name c = n -> protocol c = p ->
             getConfig n q (saveConfig c s) = getConfig n q s) /\
  getConfig n q (snd (deleteConfig n p s)) = getConfig n q s /\
  (forall c c', name c = n -> protocol c = p ->
                name c' = n -> protocol c' = q ->
                let s2 := saveConfig c' (saveConfig c s) in
                getConfig n p s2 = Some c /\
                getConfig n q s2 = Some c' /\
                getConfig n q (snd (deleteConfig n p s2)) = Some c' /\
                getConfig n p (snd (deleteConfig n q s2)) = Some c).
Proof.
  intros Hpq.
  pose proof (getKey_protocol_neq n p q Hpq) as Hk.
  assert (Hk' : getKey n q <> getKey n p) by congruence.
  split; [|split].
  - intros c <- <-. now apply getConfig_saveConfig_other.
  - now apply getConfig_deleteConfig_other.
  - intros c c' Hn Hp Hn' Hq s2.
    assert (Hq2 : getConfig n q s2 = Some c').
    { unfold s2. rewrite <- Hn', <- Hq. apply getConfig_saveConfig. }
    assert (Hp2 : getConfig n p s2 = Some c).
    { unfold s2. rewrite getConfig_saveConfig_other.
      - rewrite <- Hn, <- Hp. apply getConfig_saveConfig.
      - unfold keyOf. now rewrite Hn', Hq. }
    repeat split; trivial.
    + now rewrite getConfig_deleteConfig_other.
    + now rewrite getConfig_deleteConfig_other.
Qed.

Lemma protocols_independent_witness :
  (forall c, name c = "demo" -> protocol c = hls ->
             getConfig "demo" dash (saveConfig c sampleStore) =
             getConfig "demo" dash sampleStore) /\
  getConfig "demo" dash (snd (deleteConfig "demo" hls sampleStore)) =
  getConfig "demo" dash sampleStore /\
  (forall c c', name c = "demo" -> protocol c = hls ->
                name c' = "demo" -> protocol c' = dash ->
                let s2 := saveConfig c' (saveConfig c sampleStore) in
                getConfig "demo" hls s2 = Some c /\
                getConfig "demo" dash s2 = Some c' /\
                getConfig "demo" dash (snd (deleteConfig "demo" hls s2)) = Some c' /\
                getConfig "demo" hls (snd (deleteConfig "demo" dash s2)) = Some c).
Proof.
  apply (protocols_independent sampleStore "demo" hls dash). discriminate.
Defined.

(** C6. The redirect resolver keeps nothing between requests: after a
    configuration is saved and its redirect path requested, saving an
    updated configuration under the same name and protocol makes the next
    request of that path redirect to the encoder's output for the update.
    The first request answered from the first configuration, and no
    request changes the store. *)
Theorem redirect_freshness (sv : Server) (c c' : ChaosProxyConfig) (url' : string) :
  name c' = name c ->
  protocol c' = protocol c ->
  encodeProxyUrl c' = Some url' ->
  let filename := redirectFilename (name c) (protocol c) in
  let sv1 := snd (callSaveConfig c sv) in
  let first := getRedirect filename sv1 in
  let sv3 := snd (callSaveConfig c' (snd first)) in
  let second := getRedirect filename sv3 in
  fst first = redirectAnswer (encodeProxyUrl c) /\
  store (snd first) = store sv1 /\
  fst second = Redirect 302 url' /\
  store (snd second) = store sv3.
Proof.
  intros Hname Hproto Henc filename sv1 first sv3 second.
  pose proof (parseFilename_redirectFilename (name c) (protocol c)) as Hparse.
  assert (H1 : getConfig (name c) (protocol c) (store sv1) = Some c)
    by apply getConfig_saveConfig.
  assert (H3 : getConfig (name c) (protocol c) (store sv3) = Some c').
  { rewrite <- Hname, <- Hproto. apply getConfig_saveConfig. }
  unfold second, first, filename.
  rewrite (getRedirect_found _ _ _ _ _ Hparse H3).
  rewrite (getRedirect_found _ _ _ _ _ Hparse H1).
  simpl. repeat split.
  rewrite Henc. unfold redirectAnswer.
  destruct url'; [|reflexivity].
  now destruct (encodeProxyUrl_not_empty c').
Qed.

Lemma redirect_freshness_witness :
  let sv1 := snd (callSaveConfig sampleConfig emptyServer) in
  let first := getRedirect "demo.m3u8" sv1 in
  let sv3 := snd (callSaveConfig sampleUpdated (snd first)) in
  let second := getRedirect "demo.m3u8" sv3 in
  fst first =
  Redirect 302
    ("https://chaos.example.com/api/v2/manifests/hls/proxy-master.m3u8" ++
     "?url=https://origin.example.com/live/master.m3u8" ++
     "&delay=[{i:*,ms:1000}]&timeout=[{br:2000000}]") /\
  store (snd first) = store sv1 /\
  fst second =
  Redirect 302
    ("https://chaos.example.com/api/v2/manifests/hls/proxy-master.m3u8" ++
     "?url=https://origin.example.com/live/master.m3u8" ++
     "&delay=[{i:*,ms:2500}]&timeout=[{br:2000000}]") /\
  store (snd second) = store sv3.
Proof.
  apply (redirect_freshness emptyServer sampleConfig sampleUpdated);
    reflexivity.
Defined.

(** C7. For a record whose source URL is missing or empty the encoder
    gives no URL, and never the empty string; the redirect endpoint
    answers such a stored record with 500 and does not redirect. *)
Theorem missing_source_no_url (sv : Server) (n : string) (p : Protocol)
    (config : ChaosProxyConfig) :
  getConfig n p (store sv) = Some config ->
  sourceUrl config = None \/ sourceUrl config = Some "" ->
  encodeProxyUrl config = None /\
  generateProxyUrl n p (store sv) = None /\
  (forall any : ChaosProxyConfig, encodeProxyUrl any <> Some "") /\
  fst (getRedirect (redirectFilename n p) sv) =
  Send 500 "Failed to generate proxy URL" /\
  store (snd (getRedirect (redirectFilename n p) sv)) = store sv.
Proof.
  intros Hget Hsrc.
  pose proof (encodeProxyUrl_none config Hsrc) as Henc.
  repeat split.
  - exact Henc.
  - unfold generateProxyUrl. now rewrite Hget.
  - apply encodeProxyUrl_not_empty.
  - rewrite (getRedirect_found _ _ _ _ _
               (parseFilename_redirectFilename n p) Hget).
    simpl. now rewrite Henc.
  - now rewrite (getRedirect_found _ _ _ _ _
                   (parseFilename_redirectFilename n p) Hget).
Qed.

Lemma missing_source_no_url_witness :
  let sv := snd (callSaveConfig sampleNoSource emptyServer) in
  encodeProxyUrl sampleNoSource = None /\
  generateProxyUrl "broken" hls (store sv) = None /\
  (forall any : ChaosProxyConfig, encodeProxyUrl any <> Some "") /\
  fst (getRedirect "broken.m3u8" sv) = Send 500 "Failed to generate proxy URL" /\
  store (snd (getRedirect "broken.m3u8" sv)) = store sv.
Proof.
  apply (missing_source_no_url
           (snd (callSaveConfig sampleNoSource emptyServer))
           "broken" hls sampleNoSource);
    [reflexivity | right; reflexivity].
Defined.

(** C8. A redirect request whose filename ends neither in [.m3u8] nor in
    [.mpd] is answered 400 with no call on the store; a request whose name
    and protocol have no stored configuration is answered 404 with a text
    that names both, after the lookup alone, the encoder not being
    called. *)
Theorem redirect_rejections (filename : string) (sv : Server) :
  (JS.endsWith filename ".m3u8" = false ->
   JS.endsWith filename ".mpd" = false ->
   getRedirect filename sv =
   (Send 400 "Invalid filename. Use .m3u8 for HLS or .mpd for DASH", sv)) /\
  (forall (n : string) (p : Protocol),
      parseFilename filename = Some (n, p) ->
      getConfig n p (store sv) = None ->
      getRedirect filename sv =
      (Send 404
         ("Configuration '" ++ n ++ "' for " ++
          match p with hls => "HLS" | dash => "DASH" end ++
          " not found. Please create a configuration with this name and protocol first."),
       {| store := store sv; calls := push (calls sv) (CallGetConfig n p) |})).
Proof.
  split.
  - intros H1 H2. unfold getRedirect.
    now rewrite (parseFilename_bad_extension filename H1 H2).
  - intros n p Hparse Hget.
    rewrite (getRedirect_not_found filename n p sv Hparse Hget).
    do 2 f_equal. unfold notFoundText.
    destruct p; cbn [protocolToString]; rewrite !append_assoc; reflexivity.
Qed.

Lemma redirect_rejections_witness :
  let sv := {| store := sampleStore; calls := [] |} in
  getRedirect "name.xyz" sv =
  (Send 400 "Invalid filename. Use .m3u8 for HLS or .mpd for DASH", sv) /\
  getRedirect "doesnotexist.m3u8" sv =
  (Send 404
     ("Configuration 'doesnotexist' for HLS not found. " ++
      "Please create a configuration with this name and protocol first."),
   {| store := sampleStore; calls := [CallGetConfig "doesnotexist" hls] |}).
Proof.
  split.
  - apply (proj1 (redirect_rejections "name.xyz"
                    {| store := sampleStore; calls := [] |}));
      reflexivity.
  - apply (proj2 (redirect_rejections "doesnotexist.m3u8"
                    {| store := sampleStore; calls := [] |})
             "doesnotexist" hls);
      reflexivity.
Defined.

(** C9. A save request whose name does not match [^[A-Za-z0-9_-]+$] is
    answered 400 with a validation error, no call on the store being made:
    the server, store and file included, is what it was. When the required
    fields are all there, the error is the one about the name. *)
Theorem bad_name_rejected (body : SaveBody) (sv : Server) :
  (forall n, body_name body = Some n -> testNamePattern n = false) ->
  snd (postConfig body sv) = sv /\
  statusOf (fst (postConfig body sv)) = 400%Z /\
  (fst (postConfig body sv) =
   JsonError 400 "Invalid name"
     "Configuration name must contain only letters, numbers, hyphens, and underscores" \/
   fst (postConfig body sv) =
   JsonError 400 "Invalid request"
     "name, instanceUrl, sourceUrl, and protocol are required") /\
  (forall n i u p,
      body_name body = Some n -> n <> "" ->
      body_instanceUrl body = Some i -> i <> "" ->
      body_sourceUrl body = Some u -> u <> "" ->
      body_protocol body = Some p ->
      fst (postConfig body sv) =
      JsonError 400 "Invalid name"
        "Configuration name must contain only letters, numbers, hyphens, and underscores").
Proof.
  intros Hbad. unfold postConfig.
  destruct (body_name body) as [n|]; [|repeat split; auto; discriminate].
  specialize (Hbad n eq_refl).
  destruct (body_instanceUrl body) as [i|]; [|repeat split; auto; discriminate].
  destruct (body_sourceUrl body) as [u|]; [|repeat split; auto; discriminate].
  destruct (body_protocol body) as [p|]; [|repeat split; auto; discriminate].
  rewrite Hbad. simpl negb. cbv iota.
  destruct (isEmpty n || isEmpty i || isEmpty u) eqn:E; simpl.
  - repeat split; auto.
    intros n0 i0 u0 p0 Hn Hn0 Hi Hi0 Hu Hu0 _.
    injection Hn as <-. injection Hi as <-. injection Hu as <-.
    destruct n; [congruence|]. destruct i; [congruence|].
    destruct u; [congruence|]. discriminate.
  - repeat split; auto.
Qed.

Lemma bad_name_rejected_witness :
  let sv := {| store := sampleStore; calls := [] |} in
  snd (postConfig sampleBadBody sv) = sv /\
  statusOf (fst (postConfig sampleBadBody sv)) = 400%Z /\
  (fst (postConfig sampleBadBody sv) =
   JsonError 400 "Invalid name"
     "Configuration name must contain only letters, numbers, hyphens, and underscores" \/
   fst (postConfig sampleBadBody sv) =
   JsonError 400 "Invalid request"
     "name, instanceUrl, sourceUrl, and protocol are required") /\
  (forall n i u p,
      body_name sampleBadBody = Some n -> n <> "" ->
      body_instanceUrl sampleBadBody = Some i -> i <> "" ->
      body_sourceUrl sampleBadBody = Some u -> u <> "" ->
      body_protocol sampleBadBody = Some p ->
      fst (postConfig sampleBadBody sv) =
      JsonError 400 "Invalid name"
        "Configuration name must contain only letters, numbers, hyphens, and underscores").
Proof.
  apply (bad_name_rejected sampleBadBody {| store := sampleStore; calls := [] |}).
  intros n Hn. injection Hn as <-. reflexivity.
Defined.

(** C10. Writing the collection to the file and building a store from the
    file, as at startup, gives a store with the same record under every
    key, and a [listConfigs] that is the reverse of the one before. *)
Theorem persist_reload (s : Store) :
  StoreInv s ->
  writable (disk s) = true ->
  let reloaded := newStore (disk (saveToFile s)) in
  (forall k : string,
      OrderedMap.get k (configs reloaded) = OrderedMap.get k (configs s)) /\
  (forall (n : string) (p : Protocol),
      getConfig n p reloaded = getConfig n p s) /\
  listConfigs reloaded = rev (listConfigs s).
Proof.
  intros Hs Hw reloaded.
  assert (Hconf : configs reloaded = rev (configs s))
    by now apply configs_reload.
  destruct Hs as [Hwf _].
  repeat split.
  - intros k. rewrite Hconf. now apply OrderedMapFacts.get_rev.
  - intros n p. unfold getConfig. rewrite Hconf.
    now apply OrderedMapFacts.get_rev.
  - unfold listConfigs. rewrite Hconf. unfold OrderedMap.values.
    now rewrite map_rev.
Qed.

Lemma persist_reload_witness :
  let reloaded := newStore (disk (saveToFile sampleStore)) in
  (forall k : string,
      OrderedMap.get k (configs reloaded) = OrderedMap.get k (configs sampleStore)) /\
  (forall (n : string) (p : Protocol),
      getConfig n p reloaded = getConfig n p sampleStore) /\
  listConfigs sampleStore = [sampleDash; sampleOther; sampleConfig] /\
  listConfigs reloaded = [sampleConfig; sampleOther; sampleDash].
Proof.
  assert (Hinv : StoreInv sampleStore).
  { unfold sampleStore. do 3 apply StoreInv_saveConfig. apply StoreInv_newStore. }
  destruct (persist_reload sampleStore Hinv eq_refl) as [Hkeys [Hget Hlist]].
  split; [exact Hkeys | split; [exact Hget | split; [reflexivity | exact Hlist]]].
Defined.

(** ** Further properties of the store *)

Section MoreStoreFacts.

Import OrderedMap OrderedMapFacts.

Lemma get_In {V : Type} (k : string) (v : V) (m : OrderedMap.t V) :
  wf m -> (get k m = Some v <-> In (k, v) m).
Proof.
  unfold wf. induction m as [|[k' v'] m IH]; simpl.
  - split; [discriminate | tauto].
  - intros Hnd. inversion Hnd as [|? ? Hnotin Hnd']; subst.
    destruct (String.eqb k' k) eqn:E.
    + apply String.eqb_eq in E. subst k'. split.
      * intros H. injection H as ->. now left.
      * intros [H|H]; [now injection H as -> |].
        exfalso. apply Hnotin. apply (in_map fst) in H. exact H.
    + apply String.eqb_neq in E. rewrite (IH Hnd'). split.
      * now right.
      * intros [H|H]; [injection H as -> _; congruence | exact H].
Qed.

Lemma In_listConfigs (c : ChaosProxyConfig) (s : Store) :
  consistent (configs s) ->
  (In c (listConfigs s) <-> In (keyOf c, c) (configs s)).
Proof.
  intros Hc. unfold listConfigs, values. rewrite <- in_rev, in_map_iff.
  split.
  - intros [[k v] [Hv Hin]]. simpl in Hv. subst v.
    unfold consistent in Hc. rewrite Forall_forall in Hc.
    specialize (Hc _ Hin). simpl in Hc. now subst k.
  - intros Hin. now exists (keyOf c, c).
Qed.

Lemma hasConfig_getConfig (n : string) (p : Protocol) (s : Store) :
  hasConfig n p s = true <-> exists c, getConfig n p s = Some c.
Proof. apply has_get. Qed.

Lemma getConfig_key (n : string) (p : Protocol) (c : ChaosProxyConfig) (s : Store) :
  StoreInv s -> getConfig n p s = Some c -> name c = n /\ protocol c = p.
Proof.
  intros [Hwf Hc] Hget. unfold getConfig in Hget.
  apply (get_In _ _ _ Hwf) in Hget.
  unfold consistent in Hc. rewrite Forall_forall in Hc.
  specialize (Hc _ Hget). simpl in Hc.
  symmetry in Hc. now apply getKey_inj in Hc.
Qed.

Lemma listed_getConfig (c : ChaosProxyConfig) (s : Store) :
  StoreInv s ->
  (In c (listConfigs s) <-> getConfig (name c) (protocol c) s = Some c).
Proof.
  intros [Hwf Hc]. rewrite (In_listConfigs c s Hc).
  unfold getConfig. symmetry. apply (get_In _ _ _ Hwf).
Qed.

Lemma listConfigs_deleteConfig (n : string) (p : Protocol) (s : Store) :
  StoreInv s ->
  listConfigs (snd (deleteConfig n p s)) =
  filter (fun c => negb (String.eqb (keyOf c) (getKey n p))) (listConfigs s).
Proof.
  intros [Hwf Hc]. unfold listConfigs. rewrite configs_deleteConfig.
  rewrite (remove_filter _ _ Hwf), filter_rev. f_equal.
  unfold consistent, values in *.
  induction Hc as [|[k v] m Hkv Hm IH]; simpl; [reflexivity|].
  simpl in Hkv. subst k. inversion Hwf; subst.
  destruct (String.eqb (keyOf v) (getKey n p)); simpl; now rewrite IH.
Qed.

Lemma store_eta (s : Store) : {| configs := configs s; disk := disk s |} = s.
Proof. now destruct s. Qed.

Lemma store_ext (a b : Store) :
  configs a = configs b -> disk a = disk b -> a = b.
Proof. destruct a, b. simpl. now intros -> ->. Qed.

Lemma fst_deleteConfig (n : string) (p : Protocol) (s : Store) :
  fst (deleteConfig n p s) = hasConfig n p s.
Proof.
  unfold deleteConfig, delete, hasConfig.
  now destruct (has (getKey n p) (configs s)).
Qed.

Lemma disk_saveConfig (c : ChaosProxyConfig) (s : Store) :
  disk (saveConfig c s) =
  if writable (disk s)
  then {| content := Holds (listConfigs (saveConfig c s)); writable := true |}
  else disk s.
Proof.
  unfold saveConfig, saveToFile, listConfigs. simpl.
  now destruct (writable (disk s)).
Qed.

Lemma deleteConfig_gone (n : string) (p : Protocol) (s : Store) :
  StoreInv s -> hasConfig n p (snd (deleteConfig n p s)) = false.
Proof.
  intros [Hwf _]. unfold hasConfig. rewrite configs_deleteConfig.
  now apply has_remove_same.
Qed.

Lemma deleteConfig_absent (s : Store) (n : string) (p : Protocol) :
  hasConfig n p s = false -> deleteConfig n p s = (false, s).
Proof.
  unfold hasConfig, deleteConfig, delete. intros H. rewrite H.
  rewrite (remove_absent _ _ H). now rewrite store_eta.
Qed.

Lemma disk_newStore (d : Disk) : disk (newStore d) = d.
Proof. unfold newStore, loadFromFile. simpl. now destruct (content d). Qed.

Lemma find_app_last {A : Type} (f : A -> bool) (l : list A) (x : A) :
  find f (l ++ [x])%list =
  match find f l with
  | Some y => Some y
  | None => if f x then Some x else None
  end.
Proof.
  induction l as [|a l IH]; simpl; [reflexivity|].
  now destruct (f a).
Qed.

Lemma get_load (k : string) (records : list ChaosProxyConfig) m :
  get k (fold_left (fun acc config => set (keyOf config) config acc) records m) =
  match find (fun c => String.eqb (keyOf c) k) (rev records) with
  | Some c => Some c
  | None => get k m
  end.
Proof.
  revert m. induction records as [|c records IH]; intros m; simpl; [reflexivity|].
  rewrite IH, find_app_last.
  destruct (find _ (rev records)); [reflexivity|].
  destruct (String.eqb (keyOf c) k) eqn:E.
  - apply String.eqb_eq in E. subst k. apply get_set_same.
  - apply String.eqb_neq in E. now apply get_set_other.
Qed.

End MoreStoreFacts.

(** X1. In a store the program can be in, [hasConfig] says yes exactly
    for the (name, protocol) pairs of the records [listConfigs] returns. *)
Theorem hasConfig_iff_listed (s : Store) (n : string) (p : Protocol) :
  StoreInv s ->
  (hasConfig n p s = true <->
   exists c, In c (listConfigs s) /\ name c = n /\ protocol c = p).
Proof.
  intros Hs. rewrite hasConfig_getConfig. split.
  - intros [c Hget]. exists c.
    destruct (getConfig_key n p c s Hs Hget) as [Hn Hp].
    split; [|now split].
    apply (listed_getConfig c s Hs). now rewrite Hn, Hp.
  - intros [c [Hin [Hn Hp]]]. exists c.
    apply (listed_getConfig c s Hs) in Hin. now rewrite <- Hn, <- Hp.
Qed.

Lemma sampleStore_inv : StoreInv sampleStore.
Proof.
  unfold sampleStore. do 3 apply StoreInv_saveConfig. apply StoreInv_newStore.
Qed.

Lemma hasConfig_iff_listed_witness :
  hasConfig "demo" dash sampleStore = true <->
  exists c, In c (listConfigs sampleStore) /\ name c = "demo" /\ protocol c = dash.
Proof.
  apply (hasConfig_iff_listed sampleStore "demo" dash). exact sampleStore_inv.
Defined.

(** X2. In a store the program can be in, the records [listConfigs]
    returns are exactly those [getConfig] gives back under their own name
    and protocol, and a record fetched under a name and protocol carries
    that name and that protocol. *)
Theorem listed_iff_fetched (s : Store) (c : ChaosProxyConfig) :
  StoreInv s ->
  (In c (listConfigs s) <-> getConfig (name c) (protocol c) s = Some c) /\
  (forall (n : string) (p : Protocol),
      getConfig n p s = Some c -> name c = n /\ protocol c = p).
Proof.
  intros Hs. split; [now apply listed_getConfig|].
  intros n p Hget. now apply (getConfig_key n p c s Hs).
Qed.

Lemma listed_iff_fetched_witness :
  (In sampleOther (listConfigs sampleStore) <->
   getConfig "other" hls sampleStore = Some sampleOther) /\
  (forall (n : string) (p : Protocol),
      getConfig n p sampleStore = Some sampleOther ->
      "other" = n /\ hls = p).
Proof.
  apply (listed_iff_fetched sampleStore sampleOther). exact sampleStore_inv.
Defined.

(** X3. No store the program can be in lists two records with the same
    name and protocol: startup, even from a file that repeats a key, saves
    and deletes keep one record per key. *)
Theorem reachable_one_record_per_key (s : Store) :
  Reachable s ->
  NoDup (map (fun c => (name c, protocol c)) (listConfigs s)).
Proof.
  intros Hr.
  pose proof (listConfigs_NoDup s (Reachable_StoreInv s Hr)) as Hnd.
  apply (NoDup_map_inv (fun np : string * Protocol => getKey (fst np) (snd np))).
  now rewrite map_map.
Qed.

Lemma reachable_one_record_per_key_witness :
  NoDup (map (fun c => (name c, protocol c))
             (listConfigs (saveConfig sampleDash (newStore sampleFileWithDuplicate)))).
Proof.
  apply (reachable_one_record_per_key
           (saveConfig sampleDash (newStore sampleFileWithDuplicate))).
  apply reach_save, reach_new.
Defined.

(** X4. [deleteConfig] answers whether the record was there; afterwards
    the key is gone from [getConfig], [hasConfig] and [listConfigs], the
    rest of the list keeps its order, and every other key holds what it
    held. *)
Theorem deleteConfig_effect (s : Store) (n : string) (p : Protocol) :
  StoreInv s ->
  let s' := snd (deleteConfig n p s) in
  fst (deleteConfig n p s) = hasConfig n p s /\
  getConfig n p s' = None /\
  hasConfig n p s' = false /\
  listConfigs s' =
  filter (fun c => negb (String.eqb (keyOf c) (getKey n p))) (listConfigs s) /\
  (forall (n' : string) (p' : Protocol),
      (n', p') <> (n, p) -> getConfig n' p' s' = getConfig n' p' s).
Proof.
  intros Hs s'. destruct Hs as [Hwf Hc].
  assert (Hhas : hasConfig n p s' = false).
  { unfold hasConfig, s'. rewrite configs_deleteConfig.
    now apply OrderedMapFacts.has_remove_same. }
  repeat split.
  - apply fst_deleteConfig.
  - apply OrderedMapFacts.get_none_has. exact Hhas.
  - exact Hhas.
  - unfold s'. apply (listConfigs_deleteConfig n p s (conj Hwf Hc)).
  - intros n' p' Hne. unfold s'. apply getConfig_deleteConfig_other.
    intros E. apply getKey_inj in E as [-> ->]. now apply Hne.
Qed.

Lemma deleteConfig_effect_witness :
  let s' := snd (deleteConfig "other" hls sampleStore) in
  fst (deleteConfig "other" hls sampleStore) = true /\
  getConfig "other" hls s' = None /\
  hasConfig "other" hls s' = false /\
  listConfigs s' = [sampleDash; sampleConfig] /\
  (forall (n' : string) (p' : Protocol),
      (n', p') <> ("other", hls) ->
      getConfig n' p' s' = getConfig n' p' sampleStore).
Proof.
  apply (deleteConfig_effect sampleStore "other" hls). exact sampleStore_inv.
Defined.

(** X5. Deleting a key that is not stored answers false and changes
    nothing, the file included: it is not rewritten. *)
Theorem deleteConfig_missing (s : Store) (n : string) (p : Protocol) :
  hasConfig n p s = false ->
  deleteConfig n p s = (false, s).
Proof.
  apply deleteConfig_absent.
Qed.

Lemma deleteConfig_missing_witness :
  deleteConfig "absent" dash sampleStore = (false, sampleStore).
Proof.
  apply (deleteConfig_missing sampleStore "absent" dash). reflexivity.
Defined.

(** X6. While the file can be written, every save and every delete that
    removes a record leaves in the file exactly what [listConfigs] then
    returns, in the same order. *)
Theorem file_mirrors_list (s : Store) :
  writable (disk s) = true ->
  (forall c : ChaosProxyConfig,
      content (disk (saveConfig c s)) = Holds (listConfigs (saveConfig c s)) /\
      writable (disk (saveConfig c s)) = true) /\
  (forall (n : string) (p : Protocol),
      hasConfig n p s = true ->
      content (disk (snd (deleteConfig n p s))) =
      Holds (listConfigs (snd (deleteConfig n p s))) /\
      writable (disk (snd (deleteConfig n p s))) = true).
Proof.
  intros Hw. split.
  - intros c. unfold saveConfig, saveToFile, listConfigs. simpl.
    rewrite Hw. simpl. now split.
  - intros n p Hhas. unfold hasConfig in Hhas.
    unfold deleteConfig, OrderedMap.delete. rewrite Hhas.
    unfold saveToFile, listConfigs. simpl. rewrite Hw. simpl. now split.
Qed.

Lemma file_mirrors_list_witness :
  (forall c : ChaosProxyConfig,
      content (disk (saveConfig c sampleStore)) =
      Holds (listConfigs (saveConfig c sampleStore)) /\
      writable (disk (saveConfig c sampleStore)) = true) /\
  (forall (n : string) (p : Protocol),
      hasConfig n p sampleStore = true ->
      content (disk (snd (deleteConfig n p sampleStore))) =
      Holds (listConfigs (snd (deleteConfig n p sampleStore))) /\
      writable (disk (snd (deleteConfig n p sampleStore))) = true).
Proof.
  apply (file_mirrors_list sampleStore). reflexivity.
Defined.





(** X9. When the file holds several records under one name and protocol,
    the store built at startup keeps the one that comes last in the file;
    a key the file does not mention is absent. *)
Theorem startup_last_record_wins (d : Disk) (records : list ChaosProxyConfig)
    (n : string) (p : Protocol) :
  content d = Holds records ->
  getConfig n p (newStore d) =
  find (fun c => String.eqb (keyOf c) (getKey n p)) (rev records).
Proof.
  intros Hd. unfold getConfig, newStore, loadFromFile. simpl. rewrite Hd.
  simpl. rewrite get_load.
  now destruct (find _ (rev records)).
Qed.

Lemma startup_last_record_wins_witness :
  getConfig "demo" hls (newStore sampleFileWithDuplicate) = Some sampleConfig.
Proof.
  apply (startup_last_record_wins sampleFileWithDuplicate
           [sampleUpdated; sampleOther; sampleConfig] "demo" hls).
  reflexivity.
Defined.

(** X10. Writing the file and starting from it twice in a row gives back
    the map as it was, entries and order: the second start undoes the
    reversal of the first. *)
Theorem restart_twice_restores_order (s : Store) :
  StoreInv s ->
  writable (disk s) = true ->
  let once := newStore (disk (saveToFile s)) in
  let twice := newStore (disk (saveToFile once)) in
  configs twice = configs s /\ listConfigs twice = listConfigs s.
Proof.
  intros Hs Hw once twice.
  assert (H1 : configs once = rev (configs s)) by now apply configs_reload.
  assert (Hw1 : writable (disk once) = true).
  { unfold once. rewrite disk_newStore.
    unfold saveToFile. now rewrite Hw. }
  assert (H2 : configs twice = rev (configs once)).
  { apply configs_reload; [apply StoreInv_newStore | exact Hw1]. }
  assert (H : configs twice = configs s) by now rewrite H2, H1, rev_involutive.
  split; [exact H|]. unfold listConfigs. now rewrite H.
Qed.

Lemma restart_twice_restores_order_witness :
  let once := newStore (disk (saveToFile sampleStore)) in
  let twice := newStore (disk (saveToFile once)) in
  configs twice = configs sampleStore /\
  listConfigs twice = [sampleDash; sampleOther; sampleConfig].
Proof.
  apply (restart_twice_restores_order sampleStore);
    [exact sampleStore_inv | reflexivity].
Defined.

(** X11. A save under a new key makes [listConfigs] one longer; a save
    under a key that is stored leaves its length as it was. *)
Theorem saveConfig_length (s : Store) (c : ChaosProxyConfig) :
  StoreInv s ->
  List.length (listConfigs (saveConfig c s)) =
  if hasConfig (name c) (protocol c) s
  then List.length (listConfigs s)
  else S (List.length (listConfigs s)).
Proof.
  intros [Hwf Hc]. unfold listConfigs, hasConfig, OrderedMap.values.
  rewrite !length_rev, !length_map, configs_saveConfig.
  fold (keyOf c). unfold OrderedMap.upsert, OrderedMap.delete. simpl.
  destruct (OrderedMap.has (keyOf c) (configs s)) eqn:E.
  - rewrite (OrderedMapFacts.set_absent _ _ _
               (OrderedMapFacts.has_remove_same _ _ Hwf)).
    rewrite length_app. simpl.
    apply OrderedMapFacts.has_In in E. clear Hc.
    unfold OrderedMap.wf, OrderedMap.keys in *.
    induction (configs s) as [|[k v] m IH]; simpl in *; [contradiction|].
    inversion Hwf as [|? ? Hnotin Hnd]; subst.
    destruct (String.eqb k (keyOf c)) eqn:Ek; [lia|].
    apply String.eqb_neq in Ek. simpl.
    destruct E as [E|E]; [congruence|].
    specialize (IH Hnd E). lia.
  - rewrite (OrderedMapFacts.set_absent _ _ _ E), length_app. simpl. lia.
Qed.

Lemma saveConfig_length_witness :
  List.length (listConfigs (saveConfig sampleUpdated sampleStore)) = 3 /\
  List.length (listConfigs (saveConfig sampleNoSource sampleStore)) = 4.
Proof.
  split.
  - apply (saveConfig_length sampleStore sampleUpdated). exact sampleStore_inv.
  - apply (saveConfig_length sampleStore sampleNoSource). exact sampleStore_inv.
Defined.

(** X12. Saving the same record twice in a row is the same as saving it
    once: map, order and file. *)
Theorem saveConfig_idempotent (s : Store) (c : ChaosProxyConfig) :
  StoreInv s ->
  saveConfig c (saveConfig c s) = saveConfig c s.
Proof.
  intros Hs. pose proof (StoreInv_saveConfig c s Hs) as Hs1.
  assert (Hconf : configs (saveConfig c (saveConfig c s)) = configs (saveConfig c s)).
  { rewrite (configs_saveConfig c (saveConfig c s)).
    rewrite (OrderedMapFacts.upsert_spec _ _ _ (proj1 Hs1)).
    rewrite configs_saveConfig.
    rewrite (OrderedMapFacts.upsert_spec _ _ _ (proj1 Hs)).
    rewrite filter_app. simpl. rewrite String.eqb_refl. simpl.
    rewrite app_nil_r. f_equal.
    induction (configs s) as [|[k v] m IH]; simpl; [reflexivity|].
    destruct (String.eqb k (keyOf c)) eqn:E; simpl; [exact IH|].
    now rewrite E, IH. }
  apply store_ext; [exact Hconf|].
  assert (Hlist : listConfigs (saveConfig c (saveConfig c s)) =
                  listConfigs (saveConfig c s))
    by (unfold listConfigs; now rewrite Hconf).
  rewrite (disk_saveConfig c (saveConfig c s)), Hlist.
  rewrite (disk_saveConfig c s).
  now destruct (writable (disk s)) eqn:Hw; simpl; rewrite ?Hw.
Qed.

Lemma saveConfig_idempotent_witness :
  saveConfig sampleUpdated (saveConfig sampleUpdated sampleStore) =
  saveConfig sampleUpdated sampleStore.
Proof.
  apply (saveConfig_idempotent sampleStore sampleUpdated). exact sampleStore_inv.
Defined.

(** X13. Deleting a record right after saving it answers true and leaves
    the list that was there before the save, less the record the save
    replaced. *)
Theorem save_then_delete (s : Store) (c : ChaosProxyConfig) :
  StoreInv s ->
  fst (deleteConfig (name c) (protocol c) (saveConfig c s)) = true /\
  listConfigs (snd (deleteConfig (name c) (protocol c) (saveConfig c s))) =
  filter (otherKey c) (listConfigs s).
Proof.
  intros Hs. pose proof (StoreInv_saveConfig c s Hs) as Hs1. split.
  - rewrite fst_deleteConfig.
    apply hasConfig_getConfig. exists c. apply getConfig_saveConfig.
  - rewrite (listConfigs_deleteConfig _ _ _ Hs1).
    rewrite (listConfigs_saveConfig c s Hs). simpl.
    fold (keyOf c). rewrite String.eqb_refl. simpl.
    fold (sameKey c). 
    apply forallb_filter_id. apply forallb_forall. intros x Hx.
    apply filter_In in Hx. exact (proj2 Hx).
Qed.

Lemma save_then_delete_witness :
  fst (deleteConfig "demo" hls (saveConfig sampleUpdated sampleStore)) = true /\
  listConfigs (snd (deleteConfig "demo" hls (saveConfig sampleUpdated sampleStore))) =
  [sampleDash; sampleOther].
Proof.
  apply (save_then_delete sampleStore sampleUpdated). exact sampleStore_inv.
Defined.

(** X14. The base URL is [scheme://host] followed by [:port] only for
    [http] with a port other than 80 and for [https] with a port other
    than 443; with any other scheme the port is never written. An empty
    variable counts as unset, and [PUBLIC_PORT] goes before [PORT]. *)
Theorem baseUrl_port_rule (env : Env) :
  let scheme := envOr (PUBLIC_PROTOCOL env) "http" in
  let host := envOr (PUBLIC_HOSTNAME env) "localhost" in
  let port := envOr (PUBLIC_PORT env) (envOr (PORT env) "3001") in
  (scheme = "http" ->
   initializeBaseUrl env =
   if String.eqb port "80" then "http://" ++ host
   else "http://" ++ host ++ ":" ++ port) /\
  (scheme = "https" ->
   initializeBaseUrl env =
   if String.eqb port "443" then "https://" ++ host
   else "https://" ++ host ++ ":" ++ port) /\
  (scheme <> "http" -> scheme <> "https" ->
   initializeBaseUrl env = scheme ++ "://" ++ host).
Proof.
  intros scheme host port. unfold initializeBaseUrl.
  fold scheme host port. repeat split.
  - intros ->. simpl. now destruct (String.eqb port "80").
  - intros ->. simpl. now destruct (String.eqb port "443").
  - intros H1 H2.
    rewrite (proj2 (String.eqb_neq scheme "http") H1).
    now rewrite (proj2 (String.eqb_neq scheme "https") H2).
Qed.

Lemma baseUrl_port_rule_witness :
  initializeBaseUrl sampleEnv = "https://chaos.example.com" /\
  initializeBaseUrl (mkEnv None (Some "") (Some "8080") (Some "http")) =
  "http://localhost:8080" /\
  initializeBaseUrl (mkEnv (Some "h") (Some "9000") None (Some "ws")) = "ws://h".
Proof.
  split; [|split].
  - apply (proj1 (proj2 (baseUrl_port_rule sampleEnv))). reflexivity.
  - apply (proj1 (baseUrl_port_rule
                    (mkEnv None (Some "") (Some "8080") (Some "http")))).
    reflexivity.
  - apply (proj2 (proj2 (baseUrl_port_rule
                           (mkEnv (Some "h") (Some "9000") None (Some "ws")))));
      discriminate.
Defined.

(** X15. For a record of a store the program can be in, the redirect URL
    shown with it is the base URL, [/redirect/] and a filename; a request
    of that filename is answered from the proxy URL shown with the same
    record: a 302 to it, or 500 when there is none. *)
Theorem shown_redirect_leads_to_shown_proxy (baseUrl : string) (sv : Server)
    (c : ChaosProxyConfig) :
  StoreInv (store sv) ->
  In c (listConfigs (store sv)) ->
  let view := withUrls baseUrl (store sv) c in
  let filename := redirectFilename (name c) (protocol c) in
  view_redirectUrl view = baseUrl ++ "/redirect/" ++ filename /\
  fst (getRedirect filename sv) = redirectAnswer (view_proxyUrl view) /\
  view_proxyUrl view = encodeProxyUrl c.
Proof.
  intros Hs Hin view filename.
  apply (listed_getConfig c (store sv) Hs) in Hin.
  assert (Hurl : view_proxyUrl view = encodeProxyUrl c).
  { unfold view, withUrls, generateProxyUrl. simpl. now rewrite Hin. }
  split; [|split; [|exact Hurl]].
  - unfold view, withUrls, generateRedirectUrl, filename, redirectFilename.
    simpl. now destruct (protocol c).
  - unfold filename.
    rewrite (getRedirect_found _ _ _ _ _
               (parseFilename_redirectFilename (name c) (protocol c)) Hin).
    cbn [fst]. now rewrite Hurl.
Qed.

Lemma shown_redirect_leads_to_shown_proxy_witness :
  let sv := {| store := sampleStore; calls := [] |} in
  let view := withUrls "https://chaos.example.com" sampleStore sampleDash in
  view_redirectUrl view = "https://chaos.example.com/redirect/demo.mpd" /\
  fst (getRedirect "demo.mpd" sv) = redirectAnswer (view_proxyUrl view) /\
  view_proxyUrl view = encodeProxyUrl sampleDash.
Proof.
  apply (shown_redirect_leads_to_shown_proxy "https://chaos.example.com"
           {| store := sampleStore; calls := [] |} sampleDash).
  - exact sampleStore_inv.
  - left. reflexivity.
Defined.



(** X17. A save request that lacks one of name, instanceUrl, sourceUrl
    and protocol, or has one of the three strings empty, is answered 400
    [Invalid request] whatever the rest of the body is, and nothing is
    called on the store. *)
Theorem postConfig_required_fields (body : SaveBody) (sv : Server) :
  orDefault (body_name body) "" = "" \/
  orDefault (body_instanceUrl body) "" = "" \/
  orDefault (body_sourceUrl body) "" = "" \/
  body_protocol body = None ->
  postConfig body sv =
  (JsonError 400 "Invalid request"
     "name, instanceUrl, sourceUrl, and protocol are required", sv).
Proof.
  intros H. unfold postConfig.
  destruct (body_name body) as [n|]; [|reflexivity].
  destruct (body_instanceUrl body) as [i|]; [|reflexivity].
  destruct (body_sourceUrl body) as [u|]; [|reflexivity].
  destruct (body_protocol body) as [p|]; [|reflexivity].
  simpl in H. destruct H as [-> | [-> | [-> | H]]]; try discriminate.
  - reflexivity.
  - now destruct n.
  - destruct n; [reflexivity|]. now destruct i.
Qed.

Lemma postConfig_required_fields_witness :
  postConfig
    (mkSaveBody (Some "fine") (Some "https://chaos.example.com") (Some "")
                (Some dash) None None None None None None)
    emptyServer =
  (JsonError 400 "Invalid request"
     "name, instanceUrl, sourceUrl, and protocol are required", emptyServer).
Proof.
  apply (postConfig_required_fields
           (mkSaveBody (Some "fine") (Some "https://chaos.example.com") (Some "")
                       (Some dash) None None None None None None)
           emptyServer).
  right. right. left. reflexivity.
Defined.

(** X18. [GET /:filename] never changes the store. Its status is one of
    302, 400, 404 and 500, and a redirect is always a 302 to the non-empty
    URL the encoder gives for the record stored under the name and
    protocol read off the filename. *)
Theorem getRedirect_readonly (filename : string) (sv : Server) :
  store (snd (getRedirect filename sv)) = store sv /\
  In (statusOf (fst (getRedirect filename sv))) [302; 400; 404; 500]%Z /\
  (forall (status : Z) (url : string),
      fst (getRedirect filename sv) = Redirect status url ->
      status = 302%Z /\ url <> "" /\
      exists n p c,
        parseFilename filename = Some (n, p) /\
        getConfig n p (store sv) = Some c /\
        encodeProxyUrl c = Some url).
Proof.
  destruct (parseFilename filename) as [[n p]|] eqn:Hparse.
  - destruct (getConfig n p (store sv)) as [c|] eqn:Hget.
    + rewrite (getRedirect_found _ _ _ _ _ Hparse Hget). simpl.
      split; [reflexivity|].
      unfold redirectAnswer.
      destruct (encodeProxyUrl c) as [[|ch url]|] eqn:Henc; simpl.
      * now destruct (encodeProxyUrl_not_empty c).
      * split; [now left|]. intros st u H. injection H as <- <-.
        split; [reflexivity|]. split; [discriminate|].
        now exists n, p, c.
      * split; [tauto|]. discriminate.
    + rewrite (getRedirect_not_found _ _ _ _ Hparse Hget). simpl.
      split; [reflexivity|]. split; [tauto|]. discriminate.
  - unfold getRedirect. rewrite Hparse. simpl.
    split; [reflexivity|]. split; [tauto|]. discriminate.
Qed.

(** X19. [GET /] answers the records in the order of [listConfigs], each
    with the proxy URL the encoder gives for that very record and with its
    redirect URL. *)
Theorem listRoute_views (baseUrl : string) (s : Store) :
  StoreInv s ->
  listRoute baseUrl s =
  ApiConfigs
    (map (fun c => {| view_config := c;
                      view_proxyUrl := encodeProxyUrl c;
                      view_redirectUrl :=
                        baseUrl ++ "/redirect/" ++
                        redirectFilename (name c) (protocol c) |})
         (listConfigs s)).
Proof.
  intros Hs. unfold listRoute. f_equal. apply map_ext_in. intros c Hin.
  apply (listed_getConfig c s Hs) in Hin.
  unfold withUrls, generateProxyUrl. now rewrite Hin.
Qed.

Lemma listRoute_views_witness :
  listRoute "http://localhost:3001" sampleStore =
  ApiConfigs
    (map (fun c => {| view_config := c;
                      view_proxyUrl := encodeProxyUrl c;
                      view_redirectUrl :=
                        "http://localhost:3001" ++ "/redirect/" ++
                        redirectFilename (name c) (protocol c) |})
         [sampleDash; sampleOther; sampleConfig]).
Proof.
  apply (listRoute_views "http://localhost:3001" sampleStore).
  exact sampleStore_inv.
Defined.

(** X20. [GET /:name/:protocol] with the token of a protocol answers the
    record stored under that name and protocol together with its two
    URLs, and 404 naming the name and the token when there is none. *)
Theorem getConfigRoute_lookup (baseUrl n : string) (p : Protocol) (s : Store) :
  StoreInv s ->
  getConfigRoute baseUrl n (protocolToString p) s =
  match getConfig n p s with
  | Some c =>
      ApiConfig {| view_config := c;
                   view_proxyUrl := encodeProxyUrl c;
                   view_redirectUrl :=
                     baseUrl ++ "/redirect/" ++ redirectFilename n p |}
  | None =>
      ApiError 404 "Not found"
        ("Configuration '" ++ n ++ "' (" ++ protocolToString p ++ ") not found")
  end.
Proof.
  intros Hs. unfold getConfigRoute.
  assert (Hp : protocolParam (protocolToString p) = Some p) by now destruct p.
  rewrite Hp. destruct (getConfig n p s) as [c|] eqn:Hget; [|reflexivity].
  destruct (getConfig_key n p c s Hs Hget) as [Hn Hpc].
  unfold withUrls, generateProxyUrl. now rewrite Hn, Hpc, Hget.
Qed.

Lemma getConfigRoute_lookup_witness :
  getConfigRoute "http://localhost:3001" "demo" "dash" sampleStore =
  ApiConfig {| view_config := sampleDash;
               view_proxyUrl := encodeProxyUrl sampleDash;
               view_redirectUrl := "http://localhost:3001/redirect/demo.mpd" |}.
Proof.
  apply (getConfigRoute_lookup "http://localhost:3001" "demo" dash sampleStore).
  exact sampleStore_inv.
Defined.

(** X21. A protocol token other than exactly [hls] or [dash] is answered
    400 by the fetch route and by the delete route, which then leaves the
    store as it was. *)
Theorem bad_protocol_token (baseUrl n token : string) (s : Store) :
  token <> "hls" ->
  token <> "dash" ->
  getConfigRoute baseUrl n token s = invalidProtocol /\
  deleteConfigRoute n token s = (invalidProtocol, s).
Proof.
  intros H1 H2. unfold getConfigRoute, deleteConfigRoute, protocolParam.
  rewrite (proj2 (String.eqb_neq token "hls") H1).
  rewrite (proj2 (String.eqb_neq token "dash") H2).
  now split.
Qed.

Lemma bad_protocol_token_witness :
  getConfigRoute "http://localhost:3001" "demo" "HLS" sampleStore =
  invalidProtocol /\
  deleteConfigRoute "demo" "HLS" sampleStore = (invalidProtocol, sampleStore).
Proof.
  apply (bad_protocol_token "http://localhost:3001" "demo" "HLS" sampleStore);
    discriminate.
Defined.

(** X22. [DELETE /:name/:protocol] answers success exactly when the
    record was stored and 404 otherwise, in which case nothing changes;
    either way a fetch or a second delete of the same name and protocol is
    then answered 404. *)
Theorem deleteConfigRoute_effect (baseUrl n : string) (p : Protocol) (s : Store) :
  StoreInv s ->
  let token := protocolToString p in
  let answer := fst (deleteConfigRoute n token s) in
  let s' := snd (deleteConfigRoute n token s) in
  answer =
  (if hasConfig n p s
   then ApiSuccess ("Configuration '" ++ n ++ "' (" ++ token ++ ") deleted")
   else notFound n token) /\
  (hasConfig n p s = false -> s' = s) /\
  s' = snd (deleteConfig n p s) /\
  getConfigRoute baseUrl n token s' = notFound n token /\
  deleteConfigRoute n token s' = (notFound n token, s').
Proof.
  intros Hs token answer s'.
  assert (Hp : protocolParam token = Some p) by (unfold token; now destruct p).
  assert (Hs' : s' = snd (deleteConfig n p s)).
  { unfold s', deleteConfigRoute. rewrite Hp.
    destruct (deleteConfig n p s) as [[|] s1]; reflexivity. }
  assert (Hgone : hasConfig n p s' = false).
  { rewrite Hs'. apply (deleteConfig_gone n p s Hs). }
  split; [|split; [|split; [exact Hs'|split]]].
  - unfold answer, deleteConfigRoute. rewrite Hp.
    rewrite <- (fst_deleteConfig n p s).
    destruct (deleteConfig n p s) as [[|] s1]; reflexivity.
  - intros Hno. rewrite Hs'.
    now rewrite (deleteConfig_absent s n p Hno).
  - unfold getConfigRoute. rewrite Hp.
    apply OrderedMapFacts.get_none_has in Hgone.
    unfold getConfig. now rewrite Hgone.
  - unfold deleteConfigRoute. rewrite Hp.
    now rewrite (deleteConfig_absent s' n p Hgone).
Qed.

Lemma deleteConfigRoute_effect_witness :
  let s' := snd (deleteConfigRoute "demo" "hls" sampleStore) in
  fst (deleteConfigRoute "demo" "hls" sampleStore) =
  ApiSuccess "Configuration 'demo' (hls) deleted" /\
  (hasConfig "demo" hls sampleStore = false -> s' = sampleStore) /\
  s' = snd (deleteConfig "demo" hls sampleStore) /\
  getConfigRoute "http://localhost:3001" "demo" "hls" s' = notFound "demo" "hls" /\
  deleteConfigRoute "demo" "hls" s' = (notFound "demo" "hls", s').
Proof.
  apply (deleteConfigRoute_effect "http://localhost:3001" "demo" hls sampleStore).
  exact sampleStore_inv.
Defined.

(** X23. Choosing one of the seven options of the targeting selector
    gives a descriptor whose targeting mode reads back as that option; any
    other token acts as [none]. *)
Theorem targeting_mode_roundtrip (mode : string) (value : Delay) :
  (In mode targetingModes ->
   getTargetingMode (handleModeChange mode value) = mode) /\
  (~ In mode targetingModes ->
   handleModeChange mode value = handleModeChange "none" value).
Proof.
  split.
  - intros H. unfold targetingModes in H. simpl in H.
    repeat (destruct H as [<- | H]; [reflexivity|]). contradiction.
  - intros H. unfold targetingModes in H. unfold handleModeChange.
    assert (Hne : forall m, In m ["all"; "index"; "sequence"; "relative"; "bitrate"; "ladder"] ->
                            String.eqb mode m = false).
    { intros m Hm. apply String.eqb_neq. intros ->. apply H. now right. }
    rewrite !Hne by (simpl; tauto). reflexivity.
Qed.

Lemma targeting_mode_roundtrip_witness :
  getTargetingMode (handleModeChange "bitrate" sampleDelay) = "bitrate" /\
  handleModeChange "everything" sampleDelay = handleModeChange "none" sampleDelay.
Proof.
  split.
  - apply (proj1 (targeting_mode_roundtrip "bitrate" sampleDelay)).
    simpl. tauto.
  - apply (proj2 (targeting_mode_roundtrip "everything" sampleDelay)).
    simpl. intros H. repeat (destruct H as [H|H]; [discriminate|]). exact H.
Defined.

(** X24. Whatever the descriptor was, after a change of targeting mode at
    most one targeting field is set, none at all for [none], and the delay
    in milliseconds is the one it had. *)
Theorem targeting_exclusive (mode : string) (value : Delay) :
  targetingFieldsSet (handleModeChange mode value) <= 1 /\
  targetingFieldsSet (handleModeChange "none" value) = 0 /\
  delay_ms (handleModeChange mode value) = delay_ms value.
Proof.
  unfold handleModeChange, targetingFieldsSet.
  repeat match goal with
         | |- context [String.eqb mode ?m] => destruct (String.eqb mode m)
         end; simpl; repeat split; lia.
Qed.

(** X25. On the wire, a descriptor switched to [none] is its delay alone,
    and one switched to [all] is the bare wildcard followed by its delay:
    what the targeting fields held before does not show. *)
Theorem targeting_on_the_wire (value : Delay) :
  toUnquotedJson (delayObject (handleModeChange "none" value)) =
  Some (match delay_ms value with
        | Some ms => "{ms:" ++ JS.numberToString ms ++ "}"
        | None => "{}"
        end) /\
  toUnquotedJson (delayObject (handleModeChange "all" value)) =
  Some (match delay_ms value with
        | Some ms => "{i:*,ms:" ++ JS.numberToString ms ++ "}"
        | None => "{i:*}"
        end).
Proof.
  destruct value as [i sq rsq br l [ms|]]; split; reflexivity.
Qed.

